(** * diakit: procedural node-link diagrams

    A shallow embedding of the diagram generator
    ([src/utils/diagram-generator.ts]), of the state interpolation and the
    raster renderer ([src/components/DiagramCanvas.tsx]) and of the vector
    renderer ([generateSvgFromDiagramState]).

    Numbers.  A JavaScript [number] is modelled by a real number: the
    arithmetic is exact, there is no NaN and no infinity, and division is the
    total division of [R] (so [x / 0 = 0]).  Integers that the code obtains
    with [Math.floor], [Math.round] or as loop counters are kept in [Z].

    Failure.  Reading a property of [undefined] throws in JavaScript; the
    functions that index arrays therefore return an [option], [None] standing
    for the thrown [TypeError]. *)

From Stdlib Require Import Reals ZArith List Ascii String Bool Lra Lia Psatz Sorted.
Import ListNotations.

Local Open Scope R_scope.

(** ** JavaScript primitives used by the sources *)

Module JS.

(** [Math.floor] and [Math.round] (nearest integer, ties upward). *)
Definition floor (v : R) : Z := Int_part v.
Definition round (v : R) : Z := Int_part (v + / 2).

(** Comparisons as booleans. *)
Definition ltb (a b : R) : bool := if Rlt_dec a b then true else false.
Definition gtb (a b : R) : bool := ltb b a.
Definition eqb (a b : R) : bool := if Req_dec_T a b then true else false.

(** [Math.atan2(y, x)], by quadrant. *)
Definition atan2 (y x : R) : R :=
  if Rlt_dec 0 x then atan (y / x)
  else if Rlt_dec x 0 then
    (if Rle_dec 0 y then atan (y / x) + PI else atan (y / x) - PI)
  else if Rlt_dec 0 y then PI / 2
  else if Rlt_dec y 0 then - (PI / 2)
  else 0.

(** [a[i]] on an array: [undefined] outside [0 .. length-1]. *)
Definition nth {A : Type} (a : list A) (i : Z) : option A :=
  if (i <? 0)%Z then None else nth_error a (Z.to_nat i).

(** [a || b] where [a] is an object or [undefined]. *)
Definition orObj {A : Type} (a b : option A) : option A :=
  match a with
  | Some _ => a
  | None => b
  end.

(** Truthiness of an optional string: [undefined] and [""] are falsy. *)
Definition truthy (s : option string) : bool :=
  match s with
  | None => false
  | Some EmptyString => false
  | Some (String _ _) => true
  end.

(** [a || b] on optional strings. *)
Definition orStr (a b : option string) : option string :=
  if truthy a then a else b.

End JS.

(** ** Data model ([src/types/diagram-types.ts]) *)

Module Point.
Record t : Type := mk { x : R; y : R }.
End Point.

Module Node.
Record t : Type := mk {
  id : Z;
  x : R;
  y : R;
  width : R;
  height : R;
  label : option string
}.
End Node.

Module Connection.
Record t : Type := mk {
  id : Z;
  from : Z;
  to : Z;
  curve : R;
  dashed : bool;
  hasArrow : bool;
  controlPoint1 : Point.t;
  controlPoint2 : Point.t
}.
End Connection.

Record DiagramState : Type := mkState {
  nodes : list Node.t;
  connections : list Connection.t
}.

Record DiagramParams : Type := mkParams {
  nodeCount : R;
  connectionDensity : R;
  layoutSpread : R;
  verticalBias : R;
  horizontalBias : R;
  nodeMinWidth : R;
  nodeMaxWidth : R;
  nodeMinHeight : R;
  nodeMaxHeight : R;
  nodeRoundness : R;
  nodeThickness : R;
  nodeScale : R;
  curveIntensity : R;
  curveVariation : R;
  connectionThickness : R;
  arrowSize : R;
  arrowFrequency : R;
  dashedFrequency : R;
  dashLength : R;
  dashGap : R;
  arrowGap : R;
  flowDirectionality : R;
  downwardBias : R;
  rightwardBias : R;
  backwardConnectionFreq : R;
  multiConnectionChance : R;
  branchingFactor : R;
  clusterTendency : R;
  curveSmoothing : R;
  controlPointDistance : R;
  selfLoopChance : R;
  parallelLineOffset : R;
  randomSeed : R;
  positionJitter : R;
  sizeVariation : R;
  styleVariation : R;
  animationSpeed : R;
  morphComplexity : R;
  strokeColor : string;
  fillColor : string;
  backgroundColor : string;
  canvasWidth : R;
  canvasHeight : R;
  nodeTitles : list string
}.

(** ** Interpolation and easing ([DiagramCanvas.tsx]) *)

Definition lerp (a b t : R) : R := a + (b - a) * t.

Definition easeInOutCubic (t : R) : R :=
  if Rlt_dec t (1 / 2) then 4 * t * t * t else 1 - (-2 * t + 2) ^ 3 / 2.

(** [arr[i] || other[Math.min(i, other.length - 1)]] *)
Definition pick {A : Type} (arr other : list A) (i : Z) : option A :=
  JS.orObj (JS.nth arr i)
           (JS.nth other (Z.min i (Z.of_nat (List.length other) - 1))).

Definition interpolateNode (fromNode toNode : Node.t) (progress : R) : Node.t :=
  {| Node.id := Node.id toNode;
     Node.x := lerp (Node.x fromNode) (Node.x toNode) progress;
     Node.y := lerp (Node.y fromNode) (Node.y toNode) progress;
     Node.width := lerp (Node.width fromNode) (Node.width toNode) progress;
     Node.height := lerp (Node.height fromNode) (Node.height toNode) progress;
     Node.label := JS.orStr (Node.label toNode) (Node.label fromNode) |}.

Definition interpolatePoint (a b : Point.t) (progress : R) : Point.t :=
  {| Point.x := lerp (Point.x a) (Point.x b) progress;
     Point.y := lerp (Point.y a) (Point.y b) progress |}.

Definition interpolateConn (fromConn toConn : Connection.t) (progress : R)
  : Connection.t :=
  {| Connection.id := Connection.id toConn;
     Connection.from := Connection.from toConn;
     Connection.to := Connection.to toConn;
     Connection.curve :=
       lerp (Connection.curve fromConn) (Connection.curve toConn) progress;
     Connection.dashed := Connection.dashed toConn;
     Connection.hasArrow := Connection.hasArrow toConn;
     Connection.controlPoint1 :=
       interpolatePoint (Connection.controlPoint1 fromConn)
                        (Connection.controlPoint1 toConn) progress;
     Connection.controlPoint2 :=
       interpolatePoint (Connection.controlPoint2 fromConn)
                        (Connection.controlPoint2 toConn) progress |}.

(** One iteration of either loop of [interpolateStates]: the two sides are
    picked, and the body reads their fields (which throws on [undefined]). *)
Definition interpolateAt {A : Type} (mix : A -> A -> R -> A)
    (src tgt : list A) (progress : R) (i : nat) : option A :=
  match pick src tgt (Z.of_nat i), pick tgt src (Z.of_nat i) with
  | Some fromElt, Some toElt => Some (mix fromElt toElt progress)
  | _, _ => None
  end.

(** [for (let i = 0; i < n; i++) out.push(body(i))], stopping at a throw. *)
Fixpoint pushEach {A : Type} (body : nat -> option A) (idx : list nat)
  : option (list A) :=
  match idx with
  | [] => Some []
  | i :: rest =>
      match body i with
      | None => None
      | Some v =>
          match pushEach body rest with
          | None => None
          | Some vs => Some (v :: vs)
          end
      end
  end.

Definition interpolateList {A : Type} (mix : A -> A -> R -> A)
    (src tgt : list A) (progress : R) : option (list A) :=
  pushEach (interpolateAt mix src tgt progress)
           (seq 0 (Nat.max (List.length src) (List.length tgt))).

Definition interpolateStates (src tgt : DiagramState) (progress : R)
  : option DiagramState :=
  match interpolateList interpolateNode (nodes src) (nodes tgt) progress with
  | None => None
  | Some ns =>
      match interpolateList interpolateConn
              (connections src) (connections tgt) progress with
      | None => None
      | Some cs => Some {| nodes := ns; connections := cs |}
      end
  end.

(** The element that stands for the side [arr] at index [i] (stated, not
    computed: it is what the loop is shown to use): the element of [arr]
    inside its bounds, the element of [other] at the same index beyond. *)
Definition side {A : Type} (arr other : list A) (i : nat) (v : A) : Prop :=
  ((i < List.length arr)%nat -> nth_error arr i = Some v) /\
  ((List.length arr <= i)%nat -> nth_error other i = Some v).

(** ** The seeded generator ([class SeededRandom]) *)

Module SeededRandom.

Record t : Type := mk { seed : R }.

(** [new SeededRandom(seed)] *)
Definition create (s : R) : t := mk s.

(** [random()]: reads the seed, then increments it. *)
Definition random (g : t) : R * t :=
  let v := sin (seed g) * 10000 in
  (v - IZR (JS.floor v), mk (seed g + 1)).

Definition range (g : t) (min max : R) : R * t :=
  let (r, g') := random g in
  (min + r * (max - min), g').


(** The generator after [k] further calls of [random]. *)
Fixpoint advance (k : nat) (g : t) : t :=
  match k with
  | O => g
  | S k' => advance k' (snd (random g))
  end.

(** The value returned by the call of [random] that follows [k] others. *)
Definition draw (k : nat) (g : t) : R := fst (random (advance k g)).

End SeededRandom.

(** ** The diagram generator ([generateDiagram]) *)

(** The indices visited by [for (let i = 0; i < n; i++)]. *)
Definition upto (n : Z) : list Z := map Z.of_nat (seq 0 (Z.to_nat n)).

Definition margin : R := 80.

(** Body of the node loop: one pushed node, six draws. *)
Definition makeNode (params : DiagramParams) (count i : Z)
    (rng : SeededRandom.t) : Node.t * SeededRandom.t :=
  let width := canvasWidth params in
  let height := canvasHeight params in
  let baseX := margin + (width - 2 * margin) * (IZR i / IZR count) in
  let baseY := margin + (height - 2 * margin) * 0.5 in
  let (r1, rng) := SeededRandom.random rng in
  let jitterX := (r1 - 0.5) * (width - 2 * margin) * positionJitter params in
  let (r2, rng) := SeededRandom.random rng in
  let jitterY := (r2 - 0.5) * (height - 2 * margin) * positionJitter params in
  let (r3, rng) := SeededRandom.random rng in
  let spreadX := (r3 - 0.5) * (width - 2 * margin) * layoutSpread params in
  let (r4, rng) := SeededRandom.random rng in
  let spreadY := (r4 - 0.5) * (height - 2 * margin) * layoutSpread params in
  let biasX := (horizontalBias params - 0.5) * (width - 2 * margin) * 0.3 in
  let biasY := (verticalBias params - 0.5) * (height - 2 * margin) * 0.3 in
  let x := baseX + jitterX + spreadX + biasX in
  let y := baseY + jitterY + spreadY + biasY in
  let (baseWidth, rng) :=
    SeededRandom.range rng (nodeMinWidth params)
      (nodeMinWidth params
       + (nodeMaxWidth params - nodeMinWidth params) * sizeVariation params) in
  let (baseHeight, rng) :=
    SeededRandom.range rng (nodeMinHeight params)
      (nodeMinHeight params
       + (nodeMaxHeight params - nodeMinHeight params) * sizeVariation params) in
  let nodeWidth := baseWidth * nodeScale params in
  let nodeHeight := baseHeight * nodeScale params in
  ({| Node.id := i;
      Node.x := Rmax margin (Rmin (width - margin - nodeWidth) x);
      Node.y := Rmax margin (Rmin (height - margin - nodeHeight) y);
      Node.width := nodeWidth;
      Node.height := nodeHeight;
      Node.label :=
        match JS.nth (nodeTitles params) i with
        | Some title => if JS.truthy (Some title) then Some title else None
        | None => None
        end |},
   rng).

Fixpoint genNodes (params : DiagramParams) (count : Z) (idx : list Z)
    (rng : SeededRandom.t) : list Node.t * SeededRandom.t :=
  match idx with
  | [] => ([], rng)
  | i :: rest =>
      let (n, rng1) := makeNode params count i rng in
      let (ns, rng2) := genNodes params count rest rng1 in
      (n :: ns, rng2)
  end.

(** Target selection for source node [i]: self loop, forward, backward or
    random fallback.  Each test draws before it looks at [i]. *)
Definition chooseTarget (params : DiagramParams) (count i : Z)
    (rng : SeededRandom.t) : Z * SeededRandom.t :=
  let (r, rng) := SeededRandom.random rng in
  if JS.ltb r (selfLoopChance params) then (i, rng)
  else
    let forwardBias := flowDirectionality params in
    let (r, rng) := SeededRandom.random rng in
    if JS.ltb r forwardBias && (i <? count - 1)%Z then
      let range :=
        Z.max 1 (JS.floor (IZR count * downwardBias params * 0.5)) in
      let (r, rng) := SeededRandom.random rng in
      (Z.min (count - 1) (i + 1 + JS.floor (r * IZR range)), rng)
    else
      let (r, rng) := SeededRandom.random rng in
      if JS.ltb r (backwardConnectionFreq params) && (0 <? i)%Z then
        let (r, rng) := SeededRandom.random rng in
        (JS.floor (r * IZR i), rng)
      else
        let (r, rng) := SeededRandom.random rng in
        let targetIndex := JS.floor (r * IZR count) in
        (if (targetIndex =? i)%Z then Z.rem (i + 1) count else targetIndex,
         rng).

(** The chord between the centres of two nodes. *)
Record Chord : Type := mkChord {
  fromX : R; fromY : R;
  dx : R; dy : R;
  distance : R;
  perpX : R; perpY : R
}.

Definition chord (fromNode toNode : Node.t) : Chord :=
  let fromX := Node.x fromNode + Node.width fromNode / 2 in
  let fromY := Node.y fromNode + Node.height fromNode / 2 in
  let toX := Node.x toNode + Node.width toNode / 2 in
  let toY := Node.y toNode + Node.height toNode / 2 in
  let dx := toX - fromX in
  let dy := toY - fromY in
  let distance := sqrt (dx * dx + dy * dy) in
  {| fromX := fromX; fromY := fromY; dx := dx; dy := dy;
     distance := distance;
     perpX := (- dy) / distance;
     perpY := dx / distance |}.

Definition controlPoint (c : Chord) (along offset scale : R) : Point.t :=
  {| Point.x := fromX c + dx c * along + perpX c * offset * scale;
     Point.y := fromY c + dy c * along + perpY c * offset * scale |}.

(** State of the connection loops. *)
Record Gen : Type := mkGen {
  rng : SeededRandom.t;
  connectionId : Z;
  emitted : list Connection.t
}.

(** Body of the inner loop, for source node [i]. *)
Definition candidate (params : DiagramParams) (ns : list Node.t)
    (count i : Z) (st : Gen) : option Gen :=
  let (r, g) := SeededRandom.random (rng st) in
  if JS.gtb r (connectionDensity params) then
    Some {| rng := g; connectionId := connectionId st;
            emitted := emitted st |}
  else
    let (targetIndex, g) := chooseTarget params count i g in
    match JS.nth ns i, JS.nth ns targetIndex with
    | Some fromNode, Some toNode =>
        let c := chord fromNode toNode in
        let (r, g) := SeededRandom.random g in
        let curveFactor :=
          curveIntensity params * (1 + (r - 0.5) * curveVariation params) in
        let (r, g) := SeededRandom.random g in
        let offset := distance c * curveFactor * (r - 0.5) in
        let (rd, g) := SeededRandom.random g in
        let (ra, g) := SeededRandom.random g in
        let first :=
          {| Connection.id := connectionId st;
             Connection.from := i;
             Connection.to := targetIndex;
             Connection.curve := curveFactor;
             Connection.dashed := JS.ltb rd (dashedFrequency params);
             Connection.hasArrow := JS.ltb ra (arrowFrequency params);
             Connection.controlPoint1 := controlPoint c 0.33 offset 0.7;
             Connection.controlPoint2 := controlPoint c 0.67 offset 1.3 |} in
        let (rm, g) := SeededRandom.random g in
        if JS.ltb rm (multiConnectionChance params)
           && negb (i =? targetIndex)%Z then
          let offset2 := (- offset) * 0.6 in
          let (rd2, g) := SeededRandom.random g in
          let (ra2, g) := SeededRandom.random g in
          let second :=
            {| Connection.id := connectionId st + 1;
               Connection.from := i;
               Connection.to := targetIndex;
               Connection.curve := curveFactor * 0.8;
               Connection.dashed := JS.ltb rd2 (dashedFrequency params);
               Connection.hasArrow := JS.ltb ra2 (arrowFrequency params);
               Connection.controlPoint1 := controlPoint c 0.33 offset2 0.7;
               Connection.controlPoint2 := controlPoint c 0.67 offset2 1.3 |} in
          Some {| rng := g; connectionId := connectionId st + 2;
                  emitted := emitted st ++ [first; second] |}
        else
          Some {| rng := g; connectionId := connectionId st + 1;
                  emitted := emitted st ++ [first] |}
    | _, _ => None
    end.

(** A loop whose body may throw. *)
Fixpoint forEach {S : Type} (idx : list Z) (body : Z -> S -> option S)
    (s : S) : option S :=
  match idx with
  | [] => Some s
  | i :: rest =>
      match body i s with
      | None => None
      | Some s' => forEach rest body s'
      end
  end.

Definition connectionsFromNode (params : DiagramParams) : Z :=
  JS.floor (1 + connectionDensity params * branchingFactor params * 5).

Definition genConnections (params : DiagramParams) (ns : list Node.t)
    (count : Z) (st : Gen) : option Gen :=
  forEach (upto count)
    (fun i => forEach (upto (connectionsFromNode params))
                (fun _ => candidate params ns count i))
    st.

Definition generateDiagram (params : DiagramParams) : option DiagramState :=
  let g := SeededRandom.create (randomSeed params) in
  let count := JS.round (nodeCount params) in
  let (ns, g) := genNodes params count (upto count) g in
  match genConnections params ns count
          {| rng := g; connectionId := 0%Z; emitted := [] |} with
  | None => None
  | Some st => Some {| nodes := ns; connections := emitted st |}
  end.

(** ** Geometry shared by the two renderers

    [getConnectionPoint], [getPointOnBezier] and [getTangentOnBezier] are
    written out twice in the sources, once per renderer, with the same
    formulas. *)

Definition getConnectionPoint (fromNode toNode : Node.t) (gap : R) : Point.t :=
  let fromCenterX := Node.x fromNode + Node.width fromNode / 2 in
  let fromCenterY := Node.y fromNode + Node.height fromNode / 2 in
  let toCenterX := Node.x toNode + Node.width toNode / 2 in
  let toCenterY := Node.y toNode + Node.height toNode / 2 in
  let dx := toCenterX - fromCenterX in
  let dy := toCenterY - fromCenterY in
  let angle := JS.atan2 dy dx in
  let halfWidth := Node.width fromNode / 2 in
  let halfHeight := Node.height fromNode / 2 in
  let edge :=
    if JS.gtb (Rabs (cos angle)) (Rabs (sin angle) * (halfWidth / halfHeight))
    then
      if JS.gtb dx 0 then
        (Node.x fromNode + Node.width fromNode,
         fromCenterY + (halfWidth / Rabs (cos angle)) * sin angle)
      else
        (Node.x fromNode,
         fromCenterY - (halfWidth / Rabs (cos angle)) * sin angle)
    else
      if JS.gtb dy 0 then
        (fromCenterX + (halfHeight / Rabs (sin angle)) * cos angle,
         Node.y fromNode + Node.height fromNode)
      else
        (fromCenterX - (halfHeight / Rabs (sin angle)) * cos angle,
         Node.y fromNode) in
  let gapX := gap * cos angle in
  let gapY := gap * sin angle in
  {| Point.x := fst edge + gapX; Point.y := snd edge + gapY |}.

Definition getPointOnBezier (p0 p1 p2 p3 : Point.t) (t : R) : Point.t :=
  let t2 := t * t in
  let t3 := t2 * t in
  let mt := 1 - t in
  let mt2 := mt * mt in
  let mt3 := mt2 * mt in
  {| Point.x := mt3 * Point.x p0 + 3 * mt2 * t * Point.x p1
                + 3 * mt * t2 * Point.x p2 + t3 * Point.x p3;
     Point.y := mt3 * Point.y p0 + 3 * mt2 * t * Point.y p1
                + 3 * mt * t2 * Point.y p2 + t3 * Point.y p3 |}.

Definition getTangentOnBezier (p0 p1 p2 p3 : Point.t) (t : R) : Point.t :=
  let t2 := t * t in
  let mt := 1 - t in
  let mt2 := mt * mt in
  {| Point.x := 3 * mt2 * (Point.x p1 - Point.x p0)
                + 6 * mt * t * (Point.x p2 - Point.x p1)
                + 3 * t2 * (Point.x p3 - Point.x p2);
     Point.y := 3 * mt2 * (Point.y p1 - Point.y p0)
                + 6 * mt * t * (Point.y p2 - Point.y p1)
                + 3 * t2 * (Point.y p3 - Point.y p2) |}.

(** ** What a renderer puts on its surface for the connections

    The raster backend issues canvas calls, the vector backend appends path
    elements to a document; both are recorded here as the shapes they denote.
    [Curve]: a stroked cubic bezier ([moveTo]/[bezierCurveTo]/[stroke], or a
    path [M .. C ..]) with its dash pattern.  [Arrow]: a filled triangle
    ([moveTo]/[lineTo]/[lineTo]/[closePath]/[fill], or a path [M .. L .. L ..
    Z]). *)

Inductive Shape : Type :=
| Curve (start c1 c2 finish : Point.t) (dash : option (R * R))
        (stroke : string) (thickness : R)
| Arrow (tip wing1 wing2 : Point.t) (fill : string).

(** The triangle of [drawArrow]; the vector backend builds the same three
    points inline. *)
Definition arrowHead (x y dx dy size : R) (color : string) : Shape :=
  let angle := JS.atan2 dy dx in
  let arrowAngle := PI / 6 in
  Arrow {| Point.x := x; Point.y := y |}
        {| Point.x := x - size * cos (angle - arrowAngle);
           Point.y := y - size * sin (angle - arrowAngle) |}
        {| Point.x := x - size * cos (angle + arrowAngle);
           Point.y := y - size * sin (angle + arrowAngle) |}
        color.

(** [state.nodes.find(n => n.id === id)] *)
Definition findNode (state : DiagramState) (id : Z) : option Node.t :=
  find (fun n => (Node.id n =? id)%Z) (nodes state).

(** The trimmed end points and the control points re-projected from them,
    as both connection loops compute them; [None] when either loop returns
    early (a node is missing, or the centres coincide). *)
Record Trim : Type := mkTrim {
  startPoint : Point.t;
  endPoint : Point.t;
  cp1 : Point.t;
  cp2 : Point.t
}.

Definition trim (state : DiagramState) (gap : R) (conn : Connection.t)
  : option Trim :=
  match findNode state (Connection.from conn),
        findNode state (Connection.to conn) with
  | Some fromNode, Some toNode =>
      let startPoint := getConnectionPoint fromNode toNode gap in
      let endPoint := getConnectionPoint toNode fromNode gap in
      let fromX := Node.x fromNode + Node.width fromNode / 2 in
      let fromY := Node.y fromNode + Node.height fromNode / 2 in
      let toX := Node.x toNode + Node.width toNode / 2 in
      let toY := Node.y toNode + Node.height toNode / 2 in
      let totalDx := toX - fromX in
      let totalDy := toY - fromY in
      let totalDist := sqrt (totalDx * totalDx + totalDy * totalDy) in
      if JS.eqb totalDist 0 then None
      else
        let startRatio :=
          sqrt ((Point.x startPoint - fromX) ^ 2
                + (Point.y startPoint - fromY) ^ 2) / totalDist in
        let endRatio :=
          1 - sqrt ((toX - Point.x endPoint) ^ 2
                    + (toY - Point.y endPoint) ^ 2) / totalDist in
        let c1 := Connection.controlPoint1 conn in
        let c2 := Connection.controlPoint2 conn in
        Some
          {| startPoint := startPoint;
             endPoint := endPoint;
             cp1 :=
               {| Point.x :=
                    lerp (Point.x startPoint) (Point.x c1) (1 / (1 - startRatio));
                  Point.y :=
                    lerp (Point.y startPoint) (Point.y c1) (1 / (1 - startRatio))
               |};
             cp2 :=
               {| Point.x := lerp (Point.x endPoint) (Point.x c2) (1 / endRatio);
                  Point.y := lerp (Point.y endPoint) (Point.y c2) (1 / endRatio)
               |} |}
  | _, _ => None
  end.

Definition dashOf (params : DiagramParams) (conn : Connection.t)
  : option (R * R) :=
  if Connection.dashed conn then Some (dashLength params, dashGap params)
  else None.

(** The pair curve-then-arrow drawn for one connection through the control
    points [c1], [c2]. *)
Definition strokeWithArrow (params : DiagramParams) (conn : Connection.t)
    (tr : Trim) (c1 c2 : Point.t) : list Shape :=
  Curve (startPoint tr) c1 c2 (endPoint tr) (dashOf params conn)
        (strokeColor params) (connectionThickness params)
  :: (if Connection.hasArrow conn then
        let arrowPos := 0.5 in
        let point :=
          getPointOnBezier (startPoint tr) c1 c2 (endPoint tr) arrowPos in
        let tangent :=
          getTangentOnBezier (startPoint tr) c1 c2 (endPoint tr) arrowPos in
        [arrowHead (Point.x point) (Point.y point)
                   (Point.x tangent) (Point.y tangent)
                   (arrowSize params) (strokeColor params)]
      else []).

(** Raster backend, connection loop of [drawDiagram]: [cp1] and [cp2] are
    computed, and the curve and the arrow are then given
    [conn.controlPoint1] and [conn.controlPoint2]. *)
Definition drawConnection (params : DiagramParams) (state : DiagramState)
    (conn : Connection.t) : list Shape :=
  match trim state (arrowGap params) conn with
  | None => []
  | Some tr =>
      strokeWithArrow params conn tr
        (Connection.controlPoint1 conn) (Connection.controlPoint2 conn)
  end.

(** Vector backend, connection loop of [generateSvgFromDiagramState]: the
    path and the arrow are given [cp1] and [cp2]. *)
Definition svgConnection (params : DiagramParams) (state : DiagramState)
    (conn : Connection.t) : list Shape :=
  match trim state (arrowGap params) conn with
  | None => []
  | Some tr => strokeWithArrow params conn tr (cp1 tr) (cp2 tr)
  end.

Definition drawDiagram (params : DiagramParams) (state : DiagramState)
  : list Shape :=
  flat_map (drawConnection params state) (connections state).

Definition generateSvgFromDiagramState (params : DiagramParams)
    (state : DiagramState) : list Shape :=
  flat_map (svgConnection params state) (connections state).

(** ** Reference readings and fixtures used in the statements below *)

(** The substitute the specification describes for an index beyond a list's
    bound: that same list's element at the clamped index, i.e. its last. *)
Definition clamped {A : Type} (arr : list A) (i : Z) : option A :=
  JS.nth arr (Z.min i (Z.of_nat (List.length arr) - 1)).

Definition plainNode (k : Z) (xv : R) : Node.t :=
  {| Node.id := k; Node.x := xv; Node.y := 0;
     Node.width := 10; Node.height := 10; Node.label := None |}.

(** Five nodes at abscissa 0, eight nodes at abscissa 100, no connection. *)
Definition fiveNodes : DiagramState :=
  {| nodes := map (fun k => plainNode k 0) (upto 5); connections := [] |}.

Definition eightNodes : DiagramState :=
  {| nodes := map (fun k => plainNode k 100) (upto 8); connections := [] |}.


(** What is recorded of a connection pushed for the source node [i]: its
    target came out of [chooseTarget], both end nodes were read from the node
    list, and its control points were placed on their chord with an offset
    proportional to the chord's length. *)
Definition Emittable (params : DiagramParams) (ns : list Node.t)
    (count i : Z) (c : Connection.t) : Prop :=
  Connection.from c = i /\
  exists g fromNode toNode k,
    Connection.to c = fst (chooseTarget params count i g) /\
    JS.nth ns i = Some fromNode /\
    JS.nth ns (Connection.to c) = Some toNode /\
    Connection.controlPoint1 c
    = controlPoint (chord fromNode toNode) 0.33
        (distance (chord fromNode toNode) * k) 0.7 /\
    Connection.controlPoint2 c
    = controlPoint (chord fromNode toNode) 0.67
        (distance (chord fromNode toNode) * k) 1.3.

(** Invariant of the connection loops. *)
Definition Wellformed (params : DiagramParams) (ns : list Node.t)
    (count : Z) (st : Gen) : Prop :=
  connectionId st = Z.of_nat (List.length (emitted st)) /\
  map Connection.id (emitted st) = upto (connectionId st) /\
  Forall (fun c => exists i, (0 <= i < count)%Z /\
                             Emittable params ns count i c)
         (emitted st).

(** The node list built by the node loop of [generateDiagram]. *)
Definition nodesOf (params : DiagramParams) : list Node.t :=
  fst (genNodes params (JS.round (nodeCount params))
         (upto (JS.round (nodeCount params)))
         (SeededRandom.create (randomSeed params))).

(** The initial parameters of [App.tsx], with the fields that the fixtures
    below vary left open. *)
Definition appParams
    (count density branching selfLoop width minWidth scale variation : R)
  : DiagramParams :=
  {| nodeCount := count;
     connectionDensity := density;
     layoutSpread := 0.7;
     verticalBias := 0.5;
     horizontalBias := 0.5;
     nodeMinWidth := minWidth;
     nodeMaxWidth := 120;
     nodeMinHeight := 20;
     nodeMaxHeight := 40;
     nodeRoundness := 2;
     nodeThickness := 2;
     nodeScale := scale;
     curveIntensity := 0.6;
     curveVariation := 0.5;
     connectionThickness := 1.5;
     arrowSize := 8;
     arrowFrequency := 0.7;
     dashedFrequency := 0.3;
     dashLength := 5;
     dashGap := 5;
     arrowGap := 10;
     flowDirectionality := 0.6;
     downwardBias := 0.6;
     rightwardBias := 0.5;
     backwardConnectionFreq := 0.15;
     multiConnectionChance := 0.3;
     branchingFactor := branching;
     clusterTendency := 0.4;
     curveSmoothing := 0.8;
     controlPointDistance := 0.5;
     selfLoopChance := selfLoop;
     parallelLineOffset := 12;
     randomSeed := 42;
     positionJitter := 0.2;
     sizeVariation := variation;
     styleVariation := 0.5;
     animationSpeed := 0.5;
     morphComplexity := 0.7;
     strokeColor := "#ffffff";
     fillColor := "#000000";
     backgroundColor := "#1a1a1a";
     canvasWidth := width;
     canvasHeight := 1400;
     nodeTitles := repeat EmptyString 8 |}.

(** The parameters of [App.tsx] as they are. *)
Definition defaultParams : DiagramParams :=
  appParams 8 0.4 0.5 0.05 1711 60 1 0.6.

(** Self loops switched off, three nodes. *)
Definition threeNodes : DiagramParams :=
  appParams 3 0.4 0.5 0 1711 60 1 0.6.

(** Self loops switched off, a single node, every candidate kept. *)
Definition loneNode : DiagramParams :=
  appParams 1 1 0 0 1711 60 1 0.6.


(** Two nodes on one row, joined by one connection with an arrow.  The
    control points are those the generator stores for this chord with the
    offset 20: 33% and 67% along it, 0.7 * 20 and 1.3 * 20 aside. *)
Definition link : Connection.t :=
  {| Connection.id := 0; Connection.from := 0; Connection.to := 1;
     Connection.curve := 0.6;
     Connection.dashed := false; Connection.hasArrow := true;
     Connection.controlPoint1 := {| Point.x := 196; Point.y := 124 |};
     Connection.controlPoint2 := {| Point.x := 264; Point.y := 136 |} |}.

Definition leftNode : Node.t :=
  {| Node.id := 0; Node.x := 100; Node.y := 100;
     Node.width := 60; Node.height := 20; Node.label := None |}.

Definition rightNode : Node.t :=
  {| Node.id := 1; Node.x := 300; Node.y := 100;
     Node.width := 60; Node.height := 20; Node.label := None |}.

Definition twoNodes : DiagramState :=
  {| nodes := [leftNode; rightNode]; connections := [link] |}.

(** The arrowhead anchored at [t = 0.5] on the bezier that runs from the
    trimmed end points through [c1] and [c2]. *)
Definition arrowOn (params : DiagramParams) (tr : Trim) (c1 c2 : Point.t)
  : Shape :=
  let point := getPointOnBezier (startPoint tr) c1 c2 (endPoint tr) 0.5 in
  let tangent := getTangentOnBezier (startPoint tr) c1 c2 (endPoint tr) 0.5 in
  arrowHead (Point.x point) (Point.y point)
            (Point.x tangent) (Point.y tangent)
            (arrowSize params) (strokeColor params).

(** The arrowhead the specification describes: anchored on the bezier
    through the STORED control points. *)
Definition arrowOnStored (params : DiagramParams) (conn : Connection.t)
    (tr : Trim) : Shape :=
  arrowOn params tr (Connection.controlPoint1 conn)
          (Connection.controlPoint2 conn).

(** The curve the specification describes: through the re-projected control
    points. *)
Definition curveRescaled (params : DiagramParams) (conn : Connection.t)
    (tr : Trim) : Shape :=
  Curve (startPoint tr) (cp1 tr) (cp2 tr) (endPoint tr) (dashOf params conn)
        (strokeColor params) (connectionThickness params).

(** The curve through the stored control points. *)
Definition curveStored (params : DiagramParams) (conn : Connection.t)
    (tr : Trim) : Shape :=
  Curve (startPoint tr) (Connection.controlPoint1 conn)
        (Connection.controlPoint2 conn) (endPoint tr) (dashOf params conn)
        (strokeColor params) (connectionThickness params).

(** ** Animation loop and canvas scale ([DiagramCanvas] component) *)

(** [progressRef.current = Math.min(1, progressRef.current + speed)] with
    [speed = params.animationSpeed * 0.1]. *)
Definition nextProgress (params : DiagramParams) (progress : R) : R :=
  Rmin 1 (progress + animationSpeed params * 0.1).

(** How far a run of [animate] frames has come when the fuel is spent. *)
Inductive Run : Type :=
| Animating
| Thrown
| Committed (frames : list DiagramState) (newCurrent : DiagramState).

(** [animate]: advance the progress, interpolate at the eased progress and
    hand the frame out; then either request the next frame (progress below
    1) or commit the target as the current state.  One unit of fuel is one
    animation frame. *)
Fixpoint animate (fuel : nat) (params : DiagramParams)
    (currentState targetState : DiagramState) (progress : R) : Run :=
  match fuel with
  | O => Animating
  | S fuel' =>
      let p := nextProgress params progress in
      match interpolateStates currentState targetState (easeInOutCubic p) with
      | None => Thrown
      | Some interpolated =>
          if JS.ltb p 1 then
            match animate fuel' params currentState targetState p with
            | Committed frames c => Committed (interpolated :: frames) c
            | other => other
            end
          else Committed [interpolated] targetState
      end
  end.

(** [a <= b] as a boolean. *)
Definition lessEq (a b : R) : bool := if Rle_dec a b then true else false.


(** [{ ...params, animationSpeed: speed }] *)
Definition withAnimationSpeed (params : DiagramParams) (speed : R)
  : DiagramParams :=
  {| nodeCount := nodeCount params;
     connectionDensity := connectionDensity params;
     layoutSpread := layoutSpread params;
     verticalBias := verticalBias params;
     horizontalBias := horizontalBias params;
     nodeMinWidth := nodeMinWidth params;
     nodeMaxWidth := nodeMaxWidth params;
     nodeMinHeight := nodeMinHeight params;
     nodeMaxHeight := nodeMaxHeight params;
     nodeRoundness := nodeRoundness params;
     nodeThickness := nodeThickness params;
     nodeScale := nodeScale params;
     curveIntensity := curveIntensity params;
     curveVariation := curveVariation params;
     connectionThickness := connectionThickness params;
     arrowSize := arrowSize params;
     arrowFrequency := arrowFrequency params;
     dashedFrequency := dashedFrequency params;
     dashLength := dashLength params;
     dashGap := dashGap params;
     arrowGap := arrowGap params;
     flowDirectionality := flowDirectionality params;
     downwardBias := downwardBias params;
     rightwardBias := rightwardBias params;
     backwardConnectionFreq := backwardConnectionFreq params;
     multiConnectionChance := multiConnectionChance params;
     branchingFactor := branchingFactor params;
     clusterTendency := clusterTendency params;
     curveSmoothing := curveSmoothing params;
     controlPointDistance := controlPointDistance params;
     selfLoopChance := selfLoopChance params;
     parallelLineOffset := parallelLineOffset params;
     randomSeed := randomSeed params;
     positionJitter := positionJitter params;
     sizeVariation := sizeVariation params;
     styleVariation := styleVariation params;
     animationSpeed := speed;
     morphComplexity := morphComplexity params;
     strokeColor := strokeColor params;
     fillColor := fillColor params;
     backgroundColor := backgroundColor params;
     canvasWidth := canvasWidth params;
     canvasHeight := canvasHeight params;
     nodeTitles := nodeTitles params |}.

(** ** Vocabulary for the statements about connection points *)

(** Offsets from the centre of [a] to the centre of [b], and their length. *)
Definition centerDx (a b : Node.t) : R :=
  Node.x b + Node.width b / 2 - (Node.x a + Node.width a / 2).

Definition centerDy (a b : Node.t) : R :=
  Node.y b + Node.height b / 2 - (Node.y a + Node.height a / 2).

Definition centerDistance (a b : Node.t) : R :=
  sqrt (centerDx a b * centerDx a b + centerDy a b * centerDy a b).

(** [p] lies on the outline of the rectangle of [n]. *)
Definition onBoundary (n : Node.t) (p : Point.t) : Prop :=
  ((Point.x p = Node.x n \/ Point.x p = Node.x n + Node.width n) /\
   Node.y n <= Point.y p <= Node.y n + Node.height n) \/
  ((Point.y p = Node.y n \/ Point.y p = Node.y n + Node.height n) /\
   Node.x n <= Point.x p <= Node.x n + Node.width n).

(** [p] lies on the straight line through the centres of [a] and [b]. *)
Definition onCenterLine (a b : Node.t) (p : Point.t) : Prop :=
  (Point.y p - (Node.y a + Node.height a / 2)) * centerDx a b
  = (Point.x p - (Node.x a + Node.width a / 2)) * centerDy a b.

(** A third node, below and to the right of [leftNode]. *)
Definition lowerRightNode : Node.t :=
  {| Node.id := 2; Node.x := 300; Node.y := 140;
     Node.width := 60; Node.height := 20; Node.label := None |}.

(** ** Text: XML escaping of labels ([generateSvgFromDiagramState]) *)

(** [s.replace(/c/g, by)] for a single character [c]. *)
Fixpoint replaceAll (c : ascii) (repl : string) (s : string) : string :=
  match s with
  | EmptyString => EmptyString
  | String x rest =>
      if Ascii.eqb x c then (repl ++ replaceAll c repl rest)%string
      else String x (replaceAll c repl rest)
  end.

(** The double quote character. *)
Definition quoteChar : ascii := "034"%char.

(** The five chained global replacements of the label, in the order of the
    source: ampersand, less-than, greater-than, double quote, apostrophe. *)
Definition escapeXml (label : string) : string :=
  replaceAll "'"%char "&#39;"
    (replaceAll quoteChar "&quot;"
       (replaceAll ">"%char "&gt;"
          (replaceAll "<"%char "&lt;"
             (replaceAll "&"%char "&amp;" label)))).

(** What one character becomes when each character is escaped on its own. *)
Definition escapeChar (c : ascii) : string :=
  if Ascii.eqb c "&"%char then "&amp;"%string
  else if Ascii.eqb c "<"%char then "&lt;"%string
  else if Ascii.eqb c ">"%char then "&gt;"%string
  else if Ascii.eqb c quoteChar then "&quot;"%string
  else if Ascii.eqb c "'"%char then "&#39;"%string
  else String c EmptyString.

Fixpoint escapeEach (s : string) : string :=
  match s with
  | EmptyString => EmptyString
  | String c rest => (escapeChar c ++ escapeEach rest)%string
  end.

(** [c] occurs in [s]. *)
Fixpoint occurs (c : ascii) (s : string) : bool :=
  match s with
  | EmptyString => false
  | String x rest => Ascii.eqb x c || occurs c rest
  end.

(** ** Text: label layout in the raster renderer ([drawDiagram]) *)

Definition space : ascii := " "%char.

(** [text.split(sep)] for a single separator character: never empty. *)
Fixpoint split (sep : ascii) (s : string) : list string :=
  match s with
  | EmptyString => [EmptyString]
  | String c rest =>
      if Ascii.eqb c sep then EmptyString :: split sep rest
      else
        match split sep rest with
        | word :: words => String c word :: words
        | [] => [String c EmptyString]
        end
  end.

(** [lines.join(sep)], used to state what [wrapText] keeps. *)
Fixpoint joinWith (sep : ascii) (parts : list string) : string :=
  match parts with
  | [] => EmptyString
  | part :: rest =>
      match rest with
      | [] => part
      | _ :: _ => (part ++ String sep (joinWith sep rest))%string
      end
  end.

(** [currentLine + ' ' + word] *)
Definition addWord (line word : string) : string :=
  (line ++ String space word)%string.

(** The loop of [wrapText] over [words[1..]], with [measure] standing for
    [getTextWidth] under the font that is current. *)
Fixpoint wrapWords (measure : string -> R) (maxWidth : R)
    (currentLine : string) (words : list string) : list string :=
  match words with
  | [] => [currentLine]
  | word :: rest =>
      if JS.ltb (measure (addWord currentLine word)) maxWidth then
        wrapWords measure maxWidth (addWord currentLine word) rest
      else currentLine :: wrapWords measure maxWidth word rest
  end.

Definition wrapText (measure : string -> R) (text : string) (maxWidth : R)
  : list string :=
  match split space text with
  | first :: rest => wrapWords measure maxWidth first rest
  | [] => []
  end.

(** The font-size loop: [measure fontSize] is [getTextWidth] once the font
    has been set to [fontSize].  One unit of fuel is one iteration; [None]
    when the fuel runs out. *)
Fixpoint shrinkToFit (fuel : nat) (measure : R -> string -> R)
    (label : string) (maxWidth maxHeight fontSize : R) (lines : list string)
  : option (R * list string) :=
  if JS.gtb fontSize 8 then
    match fuel with
    | O => None
    | S fuel' =>
        let wrapped := wrapText (measure fontSize) label maxWidth in
        let lineHeight := fontSize * 1.2 in
        let totalHeight := INR (List.length wrapped) * lineHeight in
        if lessEq totalHeight maxHeight then Some (fontSize, wrapped)
        else
          shrinkToFit fuel' measure label maxWidth maxHeight (fontSize - 1)
            wrapped
    end
  else Some (fontSize, lines).

(** The [fillText] calls for the label of a node: the line, its abscissa and
    its ordinate. *)
Definition labelTexts (fuel : nat) (measure : R -> string -> R)
    (node : Node.t) (label : string) : option (list (string * R * R)) :=
  let baseFontSize := Rmin (Node.width node) (Node.height node) * 0.5 in
  let textX := Node.x node + Node.width node / 2 in
  let textY := Node.y node + Node.height node / 2 in
  let padding := 8 in
  let maxWidth := Node.width node - padding * 2 in
  let maxHeight := Node.height node - padding * 2 in
  match shrinkToFit fuel measure label maxWidth maxHeight baseFontSize []
  with
  | None => None
  | Some (fontSize, lines) =>
      let lineHeight := fontSize * 1.2 in
      let startY :=
        textY
        - (IZR (Z.of_nat (List.length lines) - 1) * lineHeight) / 2 in
      Some (map (fun il : nat * string =>
                   (snd il, textX, startY + INR (fst il) * lineHeight))
                (combine (seq 0 (List.length lines)) lines))
  end.

(** A monospace measure for the fixtures: 0.6 of the font size per
    character. *)
Definition monospace (fontSize : R) (text : string) : R :=
  fontSize * 0.6 * INR (String.length text).

(** A node large enough for its label, and its label. *)
Definition wideNode : Node.t :=
  {| Node.id := 0; Node.x := 100; Node.y := 100;
     Node.width := 100; Node.height := 60; Node.label := Some "ab"%string |}.

(** ** Node titles ([App.tsx], [ControlPanel.tsx]) *)

(** [updateNodeTitle(index, title)] on the title list: the copy is padded
    with empty titles while [newTitles.length <= index], then
    [newTitles[index] = title]. *)
Definition updateNodeTitle (titles : list string) (index : nat)
    (title : string) : list string :=
  let newTitles :=
    titles ++ repeat EmptyString (S index - List.length titles) in
  firstn index newTitles ++ title :: skipn (S index) newTitles.

(** The title list rebuilt when the node count changes to [v]:
    [Array.from({ length: v }, (_, i) => currentTitles[i] || '')]. *)
Definition syncTitles (currentTitles : list string) (v : nat) : list string :=
  map (fun i =>
         match nth_error currentTitles i with
         | Some title => title
         | None => EmptyString
         end)
      (seq 0 v).

(** [{ ...params, nodeTitles: titles }] *)
Definition withNodeTitles (params : DiagramParams) (titles : list string)
  : DiagramParams :=
  {| nodeCount := nodeCount params;
     connectionDensity := connectionDensity params;
     layoutSpread := layoutSpread params;
     verticalBias := verticalBias params;
     horizontalBias := horizontalBias params;
     nodeMinWidth := nodeMinWidth params;
     nodeMaxWidth := nodeMaxWidth params;
     nodeMinHeight := nodeMinHeight params;
     nodeMaxHeight := nodeMaxHeight params;
     nodeRoundness := nodeRoundness params;
     nodeThickness := nodeThickness params;
     nodeScale := nodeScale params;
     curveIntensity := curveIntensity params;
     curveVariation := curveVariation params;
     connectionThickness := connectionThickness params;
     arrowSize := arrowSize params;
     arrowFrequency := arrowFrequency params;
     dashedFrequency := dashedFrequency params;
     dashLength := dashLength params;
     dashGap := dashGap params;
     arrowGap := arrowGap params;
     flowDirectionality := flowDirectionality params;
     downwardBias := downwardBias params;
     rightwardBias := rightwardBias params;
     backwardConnectionFreq := backwardConnectionFreq params;
     multiConnectionChance := multiConnectionChance params;
     branchingFactor := branchingFactor params;
     clusterTendency := clusterTendency params;
     curveSmoothing := curveSmoothing params;
     controlPointDistance := controlPointDistance params;
     selfLoopChance := selfLoopChance params;
     parallelLineOffset := parallelLineOffset params;
     randomSeed := randomSeed params;
     positionJitter := positionJitter params;
     sizeVariation := sizeVariation params;
     styleVariation := styleVariation params;
     animationSpeed := animationSpeed params;
     morphComplexity := morphComplexity params;
     strokeColor := strokeColor params;
     fillColor := fillColor params;
     backgroundColor := backgroundColor params;
     canvasWidth := canvasWidth params;
     canvasHeight := canvasHeight params;
     nodeTitles := titles |}.

(** The label a generated node takes from a title list. *)
Definition labelFrom (titles : list string) (k : nat) : option string :=
  match nth_error titles k with
  | Some (String c rest) => Some (String c rest)
  | _ => None
  end.

(** Two nodes that differ at most by their label. *)
Definition sameGeometry (n m : Node.t) : Prop :=
  Node.id n = Node.id m /\ Node.x n = Node.x m /\ Node.y n = Node.y m /\
  Node.width n = Node.width m /\ Node.height n = Node.height m.

(** * Properties *)

(** ** Easing *)

Lemma easeInOutCubic_low (t : R) :
  t < 1 / 2 -> easeInOutCubic t = 4 * t ^ 3.
Proof.
  intros Ht. unfold easeInOutCubic.
  destruct (Rlt_dec t (1 / 2)) as [_ | Hn]; [ring | contradiction].
Qed.

Lemma easeInOutCubic_high (t : R) :
  1 / 2 <= t -> easeInOutCubic t = 1 - (-2 * t + 2) ^ 3 / 2.
Proof.
  intros Ht. unfold easeInOutCubic.
  destruct (Rlt_dec t (1 / 2)) as [Hlt | _]; [lra | reflexivity].
Qed.

Lemma cube_monotone (a b : R) : a <= b -> a ^ 3 <= b ^ 3.
Proof.
  intros Hab.
  assert (H : b ^ 3 - a ^ 3 = (b - a) * ((a + b / 2) ^ 2 + 3 / 4 * b ^ 2))
    by field.
  assert (0 <= (a + b / 2) ^ 2) by apply pow2_ge_0.
  assert (0 <= b ^ 2) by apply pow2_ge_0.
  assert (0 <= (b - a) * ((a + b / 2) ^ 2 + 3 / 4 * b ^ 2)).
  { apply Rmult_le_pos; lra. }
  lra.
Qed.

Lemma easeInOutCubic_monotone (s t : R) :
  0 <= s -> s <= t -> t <= 1 -> easeInOutCubic s <= easeInOutCubic t.
Proof.
  intros Hs Hst Ht.
  destruct (Rlt_dec t (1 / 2)) as [Htl | Hth].
  - rewrite !easeInOutCubic_low by lra.
    pose proof (cube_monotone s t Hst). lra.
  - destruct (Rlt_dec s (1 / 2)) as [Hsl | Hsh].
    + rewrite (easeInOutCubic_low s) by lra.
      rewrite (easeInOutCubic_high t) by lra.
      pose proof (cube_monotone s (1 / 2) (Rlt_le _ _ Hsl)) as H1.
      pose proof (cube_monotone (-2 * t + 2) 1) as H2.
      assert (H3 : (1 / 2) ^ 3 = 1 / 8) by field.
      assert (H4 : 1 ^ 3 = 1) by ring.
      rewrite H3 in H1. rewrite H4 in H2.
      assert (-2 * t + 2 <= 1) by lra. specialize (H2 H). lra.
    + rewrite !easeInOutCubic_high by lra.
      pose proof (cube_monotone (-2 * t + 2) (-2 * s + 2)) as H.
      assert (-2 * t + 2 <= -2 * s + 2) by lra. specialize (H H0). lra.
Qed.

(** C9.  [easeInOutCubic t] is [4t^3] below one half and
    [1 - (-2t+2)^3/2] from one half on; it maps 0 to 0 and 1 to 1, and it is
    non-decreasing on the interval from 0 to 1. *)
Theorem easeInOutCubic_shape :
  (forall t, t < 1 / 2 -> easeInOutCubic t = 4 * t ^ 3) /\
  (forall t, ~ t < 1 / 2 -> easeInOutCubic t = 1 - (-2 * t + 2) ^ 3 / 2) /\
  easeInOutCubic 0 = 0 /\
  easeInOutCubic 1 = 1 /\
  (forall s t, 0 <= s -> s <= t -> t <= 1 ->
     easeInOutCubic s <= easeInOutCubic t).
Proof.
  split; [exact easeInOutCubic_low |].
  split; [intros t Ht; apply easeInOutCubic_high; lra |].
  split; [rewrite easeInOutCubic_low by lra; ring |].
  split; [rewrite easeInOutCubic_high by lra; field |].
  exact easeInOutCubic_monotone.
Qed.

Lemma easeInOutCubic_shape_witness :
  easeInOutCubic (1 / 4) <= easeInOutCubic (3 / 4).
Proof.
  apply easeInOutCubic_shape; lra.
Defined.

(** ** Interpolation *)

Section Picking.
Context {A : Type}.

Lemma nth_of_nat (l : list A) (i : nat) :
  JS.nth l (Z.of_nat i) = nth_error l i.
Proof.
  unfold JS.nth.
  destruct (Z.ltb_spec (Z.of_nat i) 0) as [Hneg | _]; [lia |].
  now rewrite Nat2Z.id.
Qed.

(** Inside the bounds of [arr] the element of [arr] is used. *)
Lemma pick_inside (arr other : list A) (i : nat) (a : A) :
  nth_error arr i = Some a -> pick arr other (Z.of_nat i) = Some a.
Proof.
  intros Ha. unfold pick. now rewrite nth_of_nat, Ha.
Qed.

(** Beyond the bounds of [arr] the element of [other] AT THE SAME INDEX is
    used: the clamp [Math.min(i, other.length - 1)] leaves [i] unchanged
    whenever [other] has an element there. *)
Lemma pick_outside (arr other : list A) (i : nat) (b : A) :
  nth_error arr i = None -> nth_error other i = Some b ->
  pick arr other (Z.of_nat i) = Some b.
Proof.
  intros Ha Hb. unfold pick. rewrite nth_of_nat, Ha. simpl.
  assert (Hi : (i < List.length other)%nat)
    by (apply nth_error_Some; congruence).
  replace (Z.min (Z.of_nat i) (Z.of_nat (List.length other) - 1))
    with (Z.of_nat i) by lia.
  now rewrite nth_of_nat.
Qed.

Lemma pick_side (arr other : list A) (i : nat) :
  (i < Nat.max (List.length arr) (List.length other))%nat ->
  exists v, pick arr other (Z.of_nat i) = Some v /\ side arr other i v.
Proof.
  intros Hi.
  destruct (nth_error arr i) as [a |] eqn:Ha.
  - exists a. split; [now apply pick_inside |].
    split; [trivial |].
    intros Hle. apply nth_error_None in Hle. congruence.
  - pose proof Ha as Hlen. apply nth_error_None in Hlen.
    destruct (nth_error other i) as [b |] eqn:Hb.
    + exists b. split; [now apply pick_outside |].
      split; [lia | trivial].
    + apply nth_error_None in Hb. lia.
Qed.

Lemma pushEach_seq (body : nat -> option A) (n start : nat) :
  (forall i, (start <= i < start + n)%nat -> exists v, body i = Some v) ->
  exists l, pushEach body (seq start n) = Some l /\
    List.length l = n /\
    forall k, (k < n)%nat ->
      exists v, nth_error l k = Some v /\ body (start + k)%nat = Some v.
Proof.
  revert start. induction n as [| n IH]; intros start Hbody.
  - exists []. split; [reflexivity |]. split; [reflexivity |].
    intros k Hk. lia.
  - destruct (Hbody start) as [v Hv]; [lia |].
    destruct (IH (S start)) as (l & Hl & Hlen & Hnth).
    { intros i Hi. apply Hbody. lia. }
    exists (v :: l). simpl. rewrite Hv, Hl.
    split; [reflexivity |]. split; [simpl; lia |].
    intros [| k] Hk.
    + exists v. rewrite Nat.add_0_r. now split.
    + destruct (Hnth k) as (w & Hw1 & Hw2); [lia |].
      exists w. split; [exact Hw1 |].
      now replace (start + S k)%nat with (S start + k)%nat by lia.
Qed.

(** The loop of [interpolateStates] never reads [undefined]: it returns
    [max] elements, the one at [i] mixing the two sides picked at [i]. *)
Lemma interpolateList_spec (mix : A -> A -> R -> A) (src tgt : list A)
    (p : R) :
  exists l, interpolateList mix src tgt p = Some l /\
    List.length l = Nat.max (List.length src) (List.length tgt) /\
    forall i, (i < Nat.max (List.length src) (List.length tgt))%nat ->
      exists f t, nth_error l i = Some (mix f t p) /\
                  side src tgt i f /\ side tgt src i t.
Proof.
  unfold interpolateList.
  destruct (pushEach_seq (interpolateAt mix src tgt p)
              (Nat.max (List.length src) (List.length tgt)) 0)
    as (l & Hl & Hlen & Hnth).
  - intros i Hi. unfold interpolateAt.
    destruct (pick_side src tgt i) as (f & -> & _); [lia |].
    destruct (pick_side tgt src i) as (t & -> & _); [lia |].
    now eexists.
  - exists l. split; [exact Hl |]. split; [exact Hlen |].
    intros i Hi. destruct (Hnth i Hi) as (v & Hv & Hbody).
    simpl in Hbody. unfold interpolateAt in Hbody.
    destruct (pick_side src tgt i Hi) as (f & Hf & Hsf).
    destruct (pick_side tgt src i) as (t & Ht & Hst); [lia |].
    rewrite Hf, Ht in Hbody. injection Hbody as <-.
    now exists f, t.
Qed.

End Picking.

Lemma interpolateStates_spec (src tgt : DiagramState) (p : R) :
  exists ns cs,
    interpolateStates src tgt p = Some {| nodes := ns; connections := cs |} /\
    interpolateList interpolateNode (nodes src) (nodes tgt) p = Some ns /\
    interpolateList interpolateConn (connections src) (connections tgt) p
    = Some cs.
Proof.
  destruct (interpolateList_spec interpolateNode (nodes src) (nodes tgt) p)
    as (ns & Hns & _).
  destruct (interpolateList_spec interpolateConn
              (connections src) (connections tgt) p) as (cs & Hcs & _).
  exists ns, cs. unfold interpolateStates. now rewrite Hns, Hcs.
Qed.

Lemma lerp_0 (a b : R) : lerp a b 0 = a.
Proof. unfold lerp. ring. Qed.


Lemma lerp_same (a t : R) : lerp a a t = a.
Proof. unfold lerp. ring. Qed.

(** C1, as stated, fails: with a 5-node source and an 8-node target, the node
    at index 5 is not interpolated from the source's last node.  At progress
    0 the stated rule gives the abscissa of the source's last node, 0; the
    loop gives 100, the target's. *)
Lemma interpolate_clamp_counterexample :
  exists r n f t,
    interpolateStates fiveNodes eightNodes 0 = Some r /\
    nth_error (nodes r) 5 = Some n /\
    clamped (nodes fiveNodes) 5 = Some f /\
    nth_error (nodes eightNodes) 5 = Some t /\
    Node.x n = 100 /\
    Node.x (interpolateNode f t 0) = 0 /\
    n <> interpolateNode f t 0.
Proof.
  eexists. eexists. eexists. eexists.
  split; [reflexivity |].
  split; [reflexivity |].
  split; [reflexivity |].
  split; [reflexivity |].
  assert (Hx : lerp 100 100 0 = 100) by apply lerp_same.
  assert (Hy : lerp 0 100 0 = 0) by apply lerp_0.
  split; [exact Hx |].
  split; [exact Hy |].
  intros Heq. apply (f_equal Node.x) in Heq. simpl in Heq.
  rewrite Hx, Hy in Heq. lra.
Qed.

(** C1, amended.  The interpolated node list has length
    [max(|source.nodes|, |target.nodes|)].  At an index inside a list's
    bounds that list's own node is used; at an index beyond them the
    substitute is the OTHER list's node at the same index (the clamp leaves
    the index unchanged there).  In particular a 5-node source and an 8-node
    target give 8 nodes, and at indices 5 to 7 both sides are the target's
    node, so the result carries the target's geometry whatever the
    progress. *)
Theorem interpolate_nodes_sides (src tgt : DiagramState) (p : R) :
  exists r,
    interpolateStates src tgt p = Some r /\
    List.length (nodes r)
    = Nat.max (List.length (nodes src)) (List.length (nodes tgt)) /\
    (forall i, (i < List.length (nodes r))%nat ->
       exists f t,
         nth_error (nodes r) i = Some (interpolateNode f t p) /\
         side (nodes src) (nodes tgt) i f /\
         side (nodes tgt) (nodes src) i t) /\
    (List.length (nodes src) = 5%nat -> List.length (nodes tgt) = 8%nat ->
       List.length (nodes r) = 8%nat /\
       forall i, (5 <= i < 8)%nat ->
         exists t n,
           nth_error (nodes tgt) i = Some t /\
           nth_error (nodes r) i = Some n /\
           n = interpolateNode t t p /\
           Node.x n = Node.x t /\ Node.y n = Node.y t /\
           Node.width n = Node.width t /\ Node.height n = Node.height t).
Proof.
  destruct (interpolateStates_spec src tgt p) as (ns & cs & Hr & Hns & _).
  destruct (interpolateList_spec interpolateNode (nodes src) (nodes tgt) p)
    as (ns' & Hns' & Hlen & Hnth).
  rewrite Hns in Hns'. injection Hns' as <-.
  exists {| nodes := ns; connections := cs |}. simpl.
  split; [exact Hr |]. split; [exact Hlen |].
  split; [intros i Hi; apply Hnth; lia |].
  intros H5 H8. rewrite H5, H8 in Hlen. simpl in Hlen.
  split; [exact Hlen |].
  intros i Hi.
  destruct (Hnth i) as (f & t & Hn & [_ Hf] & [Ht _]); [rewrite H5, H8; simpl; lia |].
  specialize (Hf ltac:(lia)). specialize (Ht ltac:(lia)).
  rewrite Ht in Hf. injection Hf as <-.
  exists t, (interpolateNode t t p).
  split; [exact Ht |]. split; [exact Hn |]. split; [reflexivity |].
  simpl. now rewrite !lerp_same.
Qed.

Lemma interpolate_nodes_sides_witness :
  exists r,
    interpolateStates fiveNodes eightNodes (1 / 2) = Some r /\
    List.length (nodes r) = 8%nat /\
    forall i, (5 <= i < 8)%nat ->
      exists t n,
        nth_error (nodes eightNodes) i = Some t /\
        nth_error (nodes r) i = Some n /\
        n = interpolateNode t t (1 / 2) /\
        Node.x n = Node.x t /\ Node.y n = Node.y t /\
        Node.width n = Node.width t /\ Node.height n = Node.height t.
Proof.
  destruct (interpolate_nodes_sides fiveNodes eightNodes (1 / 2))
    as (r & Hr & _ & _ & H).
  exists r. split; [exact Hr |].
  apply H; reflexivity.
Defined.







(** ** The generator: arithmetic of the draws *)

Lemma floor_bounds (v : R) : IZR (JS.floor v) <= v < IZR (JS.floor v) + 1.
Proof.
  unfold JS.floor. destruct (base_Int_part v) as [Hlo Hhi]. lra.
Qed.

Lemma floor_nonneg (v : R) : 0 <= v -> (0 <= JS.floor v)%Z.
Proof.
  intros Hv. destruct (floor_bounds v) as [_ Hhi].
  assert (H : IZR (-1) < IZR (JS.floor v)) by (simpl; lra).
  apply lt_IZR in H. lia.
Qed.

Lemma floor_below (v : R) (n : Z) : v < IZR n -> (JS.floor v < n)%Z.
Proof.
  intros Hv. destruct (floor_bounds v) as [Hlo _].
  apply lt_IZR. lra.
Qed.

Lemma floor_IZR (z : Z) : JS.floor (IZR z) = z.
Proof.
  unfold JS.floor. symmetry. apply Int_part_spec. lra.
Qed.

Lemma round_IZR (z : Z) : JS.round (IZR z) = z.
Proof.
  unfold JS.round. symmetry. apply Int_part_spec. lra.
Qed.

Lemma ltb_true (a b : R) : JS.ltb a b = true <-> a < b.
Proof.
  unfold JS.ltb. destruct (Rlt_dec a b); split; intros; try easy.
Qed.

Lemma ltb_false (a b : R) : JS.ltb a b = false <-> ~ a < b.
Proof.
  unfold JS.ltb. destruct (Rlt_dec a b); split; intros; try easy.
Qed.

(** Every draw lies in the half-open unit interval. *)
Lemma random_unit (g g' : SeededRandom.t) (r : R) :
  SeededRandom.random g = (r, g') -> 0 <= r < 1.
Proof.
  unfold SeededRandom.random. intros H. injection H as <- _.
  destruct (floor_bounds (sin (SeededRandom.seed g) * 10000)). lra.
Qed.

Lemma random_seed (g g' : SeededRandom.t) (r : R) :
  SeededRandom.random g = (r, g') ->
  SeededRandom.seed g' = SeededRandom.seed g + 1.
Proof.
  unfold SeededRandom.random. intros H. now injection H as _ <-.
Qed.


Lemma scaled_draw_range (r : R) (n : Z) :
  0 <= r < 1 -> (0 < n)%Z -> (0 <= JS.floor (r * IZR n) < n)%Z.
Proof.
  intros Hr Hn. apply IZR_lt in Hn. split.
  - apply floor_nonneg. apply Rmult_le_pos; lra.
  - apply floor_below. nra.
Qed.

Ltac next_draw r g H :=
  match goal with
  | |- context [SeededRandom.random ?s] =>
      destruct (SeededRandom.random s) as [r g] eqn:H;
      apply random_unit in H
  end.

(** The target chosen for a source inside the node list is inside it too. *)
Lemma chooseTarget_range (params : DiagramParams) (count i : Z)
    (g : SeededRandom.t) :
  (0 <= i < count)%Z ->
  (0 <= fst (chooseTarget params count i g) < count)%Z.
Proof.
  intros Hi. unfold chooseTarget.
  next_draw r1 g1 H1.
  destruct (JS.ltb r1 (selfLoopChance params)); [simpl; lia |].
  next_draw r2 g2 H2.
  destruct (JS.ltb r2 (flowDirectionality params) && (i <? count - 1)%Z)
    eqn:Hfwd.
  - apply andb_true_iff in Hfwd. destruct Hfwd as [_ Hlast].
    apply Z.ltb_lt in Hlast.
    next_draw r3 g3 H3. simpl.
    assert (0 <= JS.floor
                   (r3 * IZR (Z.max 1
                      (JS.floor (IZR count * downwardBias params * 0.5)))))%Z.
    { apply scaled_draw_range; [exact H3 | lia]. }
    lia.
  - next_draw r3 g3 H3.
    destruct (JS.ltb r3 (backwardConnectionFreq params) && (0 <? i)%Z)
      eqn:Hbwd.
    + apply andb_true_iff in Hbwd. destruct Hbwd as [_ Hpos].
      apply Z.ltb_lt in Hpos.
      next_draw r4 g4 H4. simpl.
      pose proof (scaled_draw_range r4 i H4 Hpos). lia.
    + next_draw r4 g4 H4. simpl.
      pose proof (scaled_draw_range r4 count H4 ltac:(lia)) as Ht.
      destruct (Z.eqb_spec (JS.floor (r4 * IZR count)) i) as [_ | _];
        [| lia].
      rewrite Z.rem_mod_nonneg by lia.
      apply Z.mod_pos_bound. lia.
Qed.

(** With [selfLoopChance <= 0] and at least two nodes, the target differs
    from the source: forward targets lie above [i], backward targets below,
    and the fallback moves a hit on [i] to [(i + 1) mod count]. *)
Lemma chooseTarget_no_self (params : DiagramParams) (count i : Z)
    (g : SeededRandom.t) :
  selfLoopChance params <= 0 -> (2 <= count)%Z -> (0 <= i < count)%Z ->
  fst (chooseTarget params count i g) <> i.
Proof.
  intros Hself Hcount Hi. unfold chooseTarget.
  next_draw r1 g1 H1.
  destruct (JS.ltb r1 (selfLoopChance params)) eqn:Hs.
  { apply ltb_true in Hs. lra. }
  next_draw r2 g2 H2.
  destruct (JS.ltb r2 (flowDirectionality params) && (i <? count - 1)%Z)
    eqn:Hfwd.
  - apply andb_true_iff in Hfwd. destruct Hfwd as [_ Hlast].
    apply Z.ltb_lt in Hlast.
    next_draw r3 g3 H3. simpl.
    assert (0 <= JS.floor
                   (r3 * IZR (Z.max 1
                      (JS.floor (IZR count * downwardBias params * 0.5)))))%Z.
    { apply scaled_draw_range; [exact H3 | lia]. }
    lia.
  - next_draw r3 g3 H3.
    destruct (JS.ltb r3 (backwardConnectionFreq params) && (0 <? i)%Z)
      eqn:Hbwd.
    + apply andb_true_iff in Hbwd. destruct Hbwd as [_ Hpos].
      apply Z.ltb_lt in Hpos.
      next_draw r4 g4 H4. simpl.
      pose proof (scaled_draw_range r4 i H4 Hpos). lia.
    + next_draw r4 g4 H4. simpl.
      destruct (Z.eqb_spec (JS.floor (r4 * IZR count)) i) as [_ | Hne];
        [| exact Hne].
      rewrite Z.rem_mod_nonneg by lia.
      destruct (Z.eq_dec (i + 1) count) as [Hlast | Hnot].
      * rewrite Hlast, Z.mod_same by lia. lia.
      * rewrite Z.mod_small by lia. lia.
Qed.

(** The fallback branch, reached when the three tests fail: the target is
    [floor(r * count)], moved to [(i + 1) mod count] when it hits [i]. *)
Lemma chooseTarget_fallback (params : DiagramParams) (count i : Z)
    (g : SeededRandom.t) :
  JS.ltb (SeededRandom.draw 0 g) (selfLoopChance params) = false ->
  JS.ltb (SeededRandom.draw 1 g) (flowDirectionality params)
    && (i <? count - 1)%Z = false ->
  JS.ltb (SeededRandom.draw 2 g) (backwardConnectionFreq params)
    && (0 <? i)%Z = false ->
  fst (chooseTarget params count i g)
  = let targetIndex := JS.floor (SeededRandom.draw 3 g * IZR count) in
    if (targetIndex =? i)%Z then Z.rem (i + 1) count else targetIndex.
Proof.
  unfold SeededRandom.draw, chooseTarget. cbn [SeededRandom.advance].
  destruct (SeededRandom.random g) as [r1 g1]. cbn [fst snd].
  intros ->.
  destruct (SeededRandom.random g1) as [r2 g2]. cbn [fst snd].
  intros ->.
  destruct (SeededRandom.random g2) as [r3 g3]. cbn [fst snd].
  intros ->.
  destruct (SeededRandom.random g3) as [r4 g4]. reflexivity.
Qed.

(** ** The generator: nodes *)

Lemma upto_succ (n : Z) : (0 <= n)%Z -> upto (n + 1) = upto n ++ [n].
Proof.
  intros Hn. unfold upto.
  replace (Z.to_nat (n + 1)) with (S (Z.to_nat n)) by lia.
  rewrite seq_S, map_app. simpl. now rewrite Z2Nat.id.
Qed.

Lemma upto_length (n : Z) : List.length (upto n) = Z.to_nat n.
Proof. unfold upto. now rewrite length_map, length_seq. Qed.

Lemma upto_nth (n : Z) (k : nat) :
  (k < Z.to_nat n)%nat -> nth_error (upto n) k = Some (Z.of_nat k).
Proof.
  intros Hk. unfold upto.
  rewrite nth_error_map, nth_error_seq.
  destruct (Nat.ltb_spec k (Z.to_nat n)); [reflexivity | lia].
Qed.

Lemma upto_In (n i : Z) : In i (upto n) <-> (0 <= i < n)%Z.
Proof.
  unfold upto. rewrite in_map_iff. split.
  - intros (k & <- & Hk). apply in_seq in Hk. lia.
  - intros Hi. exists (Z.to_nat i). split; [lia |]. apply in_seq. lia.
Qed.

Lemma makeNode_id (params : DiagramParams) (count i : Z)
    (g : SeededRandom.t) :
  Node.id (fst (makeNode params count i g)) = i.
Proof. reflexivity. Qed.

Lemma genNodes_ids (params : DiagramParams) (count : Z) (idx : list Z)
    (g : SeededRandom.t) :
  map Node.id (fst (genNodes params count idx g)) = idx.
Proof.
  revert g. induction idx as [| i rest IH]; intros g; [reflexivity |].
  cbn [genNodes].
  destruct (makeNode params count i g) as [n g1] eqn:Hn.
  specialize (IH g1).
  destruct (genNodes params count rest g1) as [ns g2].
  cbn [fst map] in *. rewrite IH. f_equal.
  change n with (fst (n, g1)). rewrite <- Hn. apply makeNode_id.
Qed.

Lemma genNodes_made (params : DiagramParams) (count : Z) (idx : list Z)
    (g : SeededRandom.t) (n : Node.t) :
  In n (fst (genNodes params count idx g)) ->
  exists i g', In i idx /\ n = fst (makeNode params count i g').
Proof.
  revert g. induction idx as [| i rest IH]; intros g; [intros [] |].
  cbn [genNodes].
  destruct (makeNode params count i g) as [m g1] eqn:Hm.
  specialize (IH g1).
  destruct (genNodes params count rest g1) as [ns g2].
  cbn [fst]. intros [<- | Hin].
  - exists i, g. split; [now left |]. now rewrite Hm.
  - destruct (IH Hin) as (j & g' & Hj & Hn).
    exists j, g'. split; [now right | exact Hn].
Qed.

(** Every index below the node count reads a node. *)
Lemma genNodes_lookup (params : DiagramParams) (count : Z)
    (g : SeededRandom.t) (t : Z) :
  (0 <= t < count)%Z ->
  exists n, JS.nth (fst (genNodes params count (upto count) g)) t = Some n
            /\ Node.id n = t.
Proof.
  intros Ht.
  pose proof (genNodes_ids params count (upto count) g) as Hids.
  unfold JS.nth. destruct (Z.ltb_spec t 0) as [Hneg | _]; [lia |].
  destruct (nth_error (fst (genNodes params count (upto count) g))
              (Z.to_nat t)) as [n |] eqn:Hn.
  - exists n. split; [reflexivity |].
    apply (map_nth_error Node.id) in Hn. rewrite Hids in Hn.
    rewrite upto_nth in Hn by lia. injection Hn as Hn. lia.
  - apply nth_error_None in Hn.
    apply (f_equal (@List.length Z)) in Hids.
    rewrite length_map, upto_length in Hids. lia.
Qed.

(** ** The generator: connections *)

Lemma controlPoint_offset (c : Chord) (along o1 o2 scale : R) :
  o1 = o2 -> controlPoint c along o1 scale = controlPoint c along o2 scale.
Proof. now intros ->. Qed.

Lemma shifted_seq (a s n : nat) :
  map (fun k => (Z.of_nat a + Z.of_nat k)%Z) (seq s n)
  = map Z.of_nat (seq (a + s) n).
Proof.
  revert s. induction n as [| n IH]; intros s; [reflexivity |].
  simpl. rewrite IH, Nat.add_succ_r. f_equal. lia.
Qed.

Section Candidate.
Variable params : DiagramParams.
Variable ns : list Node.t.
Variable count : Z.
Hypothesis ns_total :
  forall t, (0 <= t < count)%Z -> exists n, JS.nth ns t = Some n.

Lemma Wellformed_push (st : Gen) (g : SeededRandom.t)
    (new : list Connection.t) (i : Z) :
  Wellformed params ns count st ->
  (0 <= i < count)%Z ->
  map Connection.id new
  = map (fun k => (connectionId st + Z.of_nat k)%Z)
        (seq 0 (List.length new)) ->
  Forall (Emittable params ns count i) new ->
  Wellformed params ns count
    {| rng := g;
       connectionId := connectionId st + Z.of_nat (List.length new);
       emitted := emitted st ++ new |}.
Proof.
  intros (Hid & Hids & Hall) Hi Hnew Hem. unfold Wellformed. cbn [connectionId emitted].
  split; [rewrite length_app; lia |]. split.
  - rewrite map_app, Hids, Hnew. rewrite Hid. unfold upto.
    rewrite !Nat2Z.id, <- Nat2Z.inj_add, Nat2Z.id, seq_app, map_app.
    f_equal. simpl. rewrite shifted_seq. now rewrite Nat.add_0_r.
  - apply Forall_app. split; [exact Hall |].
    eapply Forall_impl; [| exact Hem].
    intros c Hc. now exists i.
Qed.

(** One candidate: it never throws, it keeps the invariant, it keeps what
    was pushed before, and it pushes a connection leaving [i] unless the
    density test skips it. *)
Lemma candidate_step (i : Z) (st : Gen) :
  (0 <= i < count)%Z ->
  Wellformed params ns count st ->
  exists st',
    candidate params ns count i st = Some st' /\
    Wellformed params ns count st' /\
    (forall c, In c (emitted st) -> In c (emitted st')) /\
    (JS.gtb (fst (SeededRandom.random (rng st))) (connectionDensity params)
     = false ->
     exists c, In c (emitted st') /\ Connection.from c = i).
Proof.
  intros Hi Hwf. unfold candidate.
  destruct (SeededRandom.random (rng st)) as [r0 g0]. cbn [fst].
  destruct (JS.gtb r0 (connectionDensity params)).
  { eexists. split; [reflexivity |]. split; [| split].
    - destruct Hwf as (H1 & H2 & H3). now split; [| split].
    - trivial.
    - discriminate. }
  pose proof (chooseTarget_range params count i g0 Hi) as Hrange.
  destruct (chooseTarget params count i g0) as [t g1] eqn:Hchoose.
  cbn [fst] in Hrange.
  destruct (ns_total i Hi) as [fromNode Hfrom].
  destruct (ns_total t Hrange) as [toNode Hto].
  rewrite Hfrom, Hto.
  destruct (SeededRandom.random g1) as [r1 g2].
  destruct (SeededRandom.random g2) as [r2 g3].
  destruct (SeededRandom.random g3) as [rd g4].
  destruct (SeededRandom.random g4) as [ra g5].
  destruct (SeededRandom.random g5) as [rm g6].
  set (c := chord fromNode toNode).
  set (cf := curveIntensity params * (1 + (r1 - 0.5) * curveVariation params)).
  assert (Hfirst : forall id dashed arrow,
    Emittable params ns count i
      {| Connection.id := id; Connection.from := i; Connection.to := t;
         Connection.curve := cf; Connection.dashed := dashed;
         Connection.hasArrow := arrow;
         Connection.controlPoint1 :=
           controlPoint c 0.33 (distance c * cf * (r2 - 0.5)) 0.7;
         Connection.controlPoint2 :=
           controlPoint c 0.67 (distance c * cf * (r2 - 0.5)) 1.3 |}).
  { intros id dashed arrow. split; [reflexivity |].
    exists g0, fromNode, toNode, (cf * (r2 - 0.5)).
    cbn [Connection.to Connection.controlPoint1 Connection.controlPoint2].
    rewrite Hchoose. cbn [fst].
    repeat split; trivial; apply controlPoint_offset; fold c; ring. }
  destruct (JS.ltb rm (multiConnectionChance params) && negb (i =? t)%Z).
  - destruct (SeededRandom.random g6) as [rd2 g7].
    destruct (SeededRandom.random g7) as [ra2 g8].
    eexists. split; [reflexivity |]. cbn [emitted]. split; [| split].
    + replace (connectionId st + 2)%Z
        with (connectionId st + Z.of_nat (List.length
                [Connection.mk (connectionId st) i t cf
                   (JS.ltb rd (dashedFrequency params))
                   (JS.ltb ra (arrowFrequency params))
                   (controlPoint c 0.33 (distance c * cf * (r2 - 0.5)) 0.7)
                   (controlPoint c 0.67 (distance c * cf * (r2 - 0.5)) 1.3);
                 Connection.mk (connectionId st + 1) i t (cf * 0.8)
                   (JS.ltb rd2 (dashedFrequency params))
                   (JS.ltb ra2 (arrowFrequency params))
                   (controlPoint c 0.33
                      (- (distance c * cf * (r2 - 0.5)) * 0.6) 0.7)
                   (controlPoint c 0.67
                      (- (distance c * cf * (r2 - 0.5)) * 0.6) 1.3)]))%Z
        by (simpl; lia).
      apply Wellformed_push with (i := i); trivial.
      * simpl. now rewrite Z.add_0_r.
      * constructor; [apply Hfirst |]. constructor; [| constructor].
        split; [reflexivity |].
        exists g0, fromNode, toNode, (- (cf * (r2 - 0.5)) * 0.6).
        cbn [Connection.to Connection.controlPoint1
             Connection.controlPoint2].
        rewrite Hchoose. cbn [fst].
        repeat split; trivial; apply controlPoint_offset; fold c; ring.
    + intros x Hx. apply in_or_app. now left.
    + intros _. eexists. split; [apply in_or_app; right; now left |].
      reflexivity.
  - eexists. split; [reflexivity |]. cbn [emitted]. split; [| split].
    + replace (connectionId st + 1)%Z
        with (connectionId st + Z.of_nat (List.length
                [Connection.mk (connectionId st) i t cf
                   (JS.ltb rd (dashedFrequency params))
                   (JS.ltb ra (arrowFrequency params))
                   (controlPoint c 0.33 (distance c * cf * (r2 - 0.5)) 0.7)
                   (controlPoint c 0.67 (distance c * cf * (r2 - 0.5)) 1.3)]))%Z
        by (simpl; lia).
      apply Wellformed_push with (i := i); trivial.
      * simpl. now rewrite Z.add_0_r.
      * constructor; [apply Hfirst | constructor].
    + intros x Hx. apply in_or_app. now left.
    + intros _. eexists. split; [apply in_or_app; right; now left |].
      reflexivity.
Qed.

End Candidate.

Lemma forEach_invariant {S : Type} (I : S -> Prop) (ok : Z -> Prop)
    (idx : list Z) (body : Z -> S -> option S) :
  (forall i s, ok i -> I s -> exists s', body i s = Some s' /\ I s') ->
  Forall ok idx ->
  forall s, I s -> exists s', forEach idx body s = Some s' /\ I s'.
Proof.
  intros Hbody Hidx. induction Hidx as [| i rest Hi _ IH]; intros s Hs.
  - exists s. now split.
  - destruct (Hbody i s Hi Hs) as (s1 & Hs1 & HI1).
    simpl. rewrite Hs1. now apply IH.
Qed.

Lemma upto_Forall (n : Z) : Forall (fun i => (0 <= i < n)%Z) (upto n).
Proof. apply Forall_forall. intros i. apply upto_In. Qed.

(** [generateDiagram] returns for every parameter record; its node list is
    the one built by the node loop and its connection list satisfies the
    loop invariant. *)
Lemma generateDiagram_spec (params : DiagramParams) :
  exists st,
    generateDiagram params
    = Some {| nodes := nodesOf params; connections := emitted st |} /\
    Wellformed params (nodesOf params) (JS.round (nodeCount params)) st.
Proof.
  unfold generateDiagram, nodesOf.
  set (count := JS.round (nodeCount params)).
  pose proof (fun t H =>
    match genNodes_lookup params count
            (SeededRandom.create (randomSeed params)) t H with
    | ex_intro _ n (conj Hn _) => ex_intro (fun n => _ = Some n) n Hn
    end) as Htotal.
  destruct (genNodes params count (upto count)
              (SeededRandom.create (randomSeed params))) as [ns g].
  cbn [fst] in *.
  destruct (forEach_invariant (Wellformed params ns count)
              (fun i => (0 <= i < count)%Z) (upto count)
              (fun i => forEach (upto (connectionsFromNode params))
                          (fun _ => candidate params ns count i)))
    with (s := {| rng := g; connectionId := 0%Z; emitted := [] |})
    as (st & Hst & Hwf).
  - intros i s Hi Hs.
    apply (forEach_invariant (Wellformed params ns count) (fun _ => True)
             (upto (connectionsFromNode params))); trivial.
    + intros _ s0 _ Hs0.
      destruct (candidate_step params ns count Htotal i s0 Hi Hs0)
        as (s' & Hs' & Hwf' & _).
      now exists s'.
    + apply Forall_forall. trivial.
  - apply upto_Forall.
  - split; [reflexivity |]. split; [reflexivity | constructor].
  - exists st. unfold genConnections. rewrite Hst. now split.
Qed.

(** ** The generator: results *)

Lemma Wellformed_nth (params : DiagramParams) (ns : list Node.t) (count : Z)
    (st : Gen) (k : nat) (c : Connection.t) :
  Wellformed params ns count st ->
  nth_error (emitted st) k = Some c -> Connection.id c = Z.of_nat k.
Proof.
  intros (Hid & Hids & _) Hk.
  assert (Hlt : (k < List.length (emitted st))%nat)
    by (apply nth_error_Some; congruence).
  apply (map_nth_error Connection.id) in Hk.
  rewrite Hids, upto_nth in Hk by lia. congruence.
Qed.

Lemma Wellformed_In (params : DiagramParams) (ns : list Node.t) (count : Z)
    (st : Gen) (c : Connection.t) :
  Wellformed params ns count st -> In c (emitted st) ->
  exists i, (0 <= i < count)%Z /\ Emittable params ns count i c.
Proof.
  intros (_ & _ & Hall) Hin.
  rewrite Forall_forall in Hall. now apply Hall.
Qed.

Lemma Emittable_target (params : DiagramParams) (ns : list Node.t)
    (count i : Z) (c : Connection.t) :
  (0 <= i < count)%Z -> Emittable params ns count i c ->
  (0 <= Connection.to c < count)%Z.
Proof.
  intros Hi (_ & g & _ & _ & _ & -> & _).
  now apply chooseTarget_range.
Qed.

Lemma nodesOf_ids (params : DiagramParams) :
  map Node.id (nodesOf params) = upto (JS.round (nodeCount params)).
Proof. apply genNodes_ids. Qed.

(** A single node with every candidate kept: the returned state holds a
    connection from node 0 to node 0. *)
Lemma loneNode_emits :
  exists st c,
    generateDiagram loneNode = Some st /\
    In c (connections st) /\
    Connection.from c = Connection.to c.
Proof.
  assert (Hcount : JS.round (nodeCount loneNode) = 1%Z) by apply round_IZR.
  assert (Hper : connectionsFromNode loneNode = 1%Z).
  { unfold connectionsFromNode. cbn [loneNode appParams connectionDensity
      branchingFactor].
    replace (1 + 1 * 0 * 5) with (IZR 1) by ring. apply floor_IZR. }
  unfold generateDiagram. rewrite Hcount.
  pose proof (fun t H =>
    match genNodes_lookup loneNode 1
            (SeededRandom.create (randomSeed loneNode)) t H with
    | ex_intro _ n (conj Hn _) => ex_intro (fun n => _ = Some n) n Hn
    end) as Htotal.
  destruct (genNodes loneNode 1 (upto 1)
              (SeededRandom.create (randomSeed loneNode))) as [ns g].
  cbn [fst] in Htotal.
  unfold genConnections. rewrite Hper.
  change (upto 1) with [0%Z]. cbn [forEach].
  destruct (candidate_step loneNode ns 1 Htotal 0
              {| rng := g; connectionId := 0%Z; emitted := [] |})
    as (st & Hst & Hwf & _ & Hpush).
  { lia. }
  { split; [reflexivity |]. split; [reflexivity | constructor]. }
  rewrite Hst.
  destruct Hpush as (c & Hc & Hfrom).
  { cbn [rng]. destruct (SeededRandom.random g) as [r g'] eqn:Hr.
    apply random_unit in Hr. cbn [fst]. apply ltb_false.
    cbn [loneNode appParams connectionDensity]. lra. }
  exists {| nodes := ns; connections := emitted st |}, c.
  split; [reflexivity |]. split; [exact Hc |].
  destruct (Wellformed_In _ _ _ _ _ Hwf Hc) as (i & Hi & Hem).
  pose proof (Emittable_target _ _ _ _ _ Hi Hem). lia.
Qed.

(** C6.  In the state returned by [generateDiagram] the node ids are
    0, 1, ..., nodeCount-1 in list order; the connection ids are 0, 1, 2, ...
    in list order, hence strictly increasing from 0; and the [from] and [to]
    of every connection are ids of nodes of the same state. *)
Theorem generateDiagram_ids (params : DiagramParams) :
  exists st,
    generateDiagram params = Some st /\
    map Node.id (nodes st) = upto (JS.round (nodeCount params)) /\
    (forall k c, nth_error (connections st) k = Some c ->
       Connection.id c = Z.of_nat k) /\
    (forall j k cj ck, (j < k)%nat ->
       nth_error (connections st) j = Some cj ->
       nth_error (connections st) k = Some ck ->
       (Connection.id cj < Connection.id ck)%Z) /\
    (forall c, In c (connections st) ->
       In (Connection.from c) (map Node.id (nodes st)) /\
       In (Connection.to c) (map Node.id (nodes st))).
Proof.
  destruct (generateDiagram_spec params) as (st & Hgen & Hwf).
  eexists. split; [exact Hgen |]. cbn [nodes connections].
  split; [apply nodesOf_ids |]. split; [| split].
  - intros k c. now apply Wellformed_nth with (1 := Hwf).
  - intros j k cj ck Hjk Hj Hk.
    rewrite (Wellformed_nth _ _ _ _ _ _ Hwf Hj).
    rewrite (Wellformed_nth _ _ _ _ _ _ Hwf Hk). lia.
  - intros c Hc. rewrite nodesOf_ids.
    destruct (Wellformed_In _ _ _ _ _ Hwf Hc) as (i & Hi & Hem).
    pose proof (Emittable_target _ _ _ _ _ Hi Hem) as Hto.
    destruct Hem as (-> & _).
    split; now apply upto_In.
Qed.

Lemma generateDiagram_ids_witness :
  exists st c,
    generateDiagram loneNode = Some st /\
    In c (connections st) /\
    In (Connection.from c) (map Node.id (nodes st)) /\
    In (Connection.to c) (map Node.id (nodes st)).
Proof.
  destruct loneNode_emits as (st & c & Hgen & Hc & _).
  destruct (generateDiagram_ids loneNode) as (st' & Hgen' & _ & _ & _ & Href).
  rewrite Hgen in Hgen'. injection Hgen' as <-.
  exists st, c. split; [exact Hgen |]. split; [exact Hc |].
  exact (Href c Hc).
Defined.

(** C5, as stated, fails: with [selfLoopChance = 0] and a single node, the
    only possible target is the source itself ([(0 + 1) mod 1 = 0]), and the
    returned state holds a connection from node 0 to node 0. *)
Lemma self_loop_counterexample :
  exists st c,
    selfLoopChance loneNode = 0 /\
    generateDiagram loneNode = Some st /\
    In c (connections st) /\
    Connection.from c = Connection.to c.
Proof.
  destruct loneNode_emits as (st & c & Hgen & Hc & Hloop).
  exists st, c. split; [reflexivity |]. now repeat split.
Qed.

(** C5, amended.  With [selfLoopChance = 0] and AT LEAST TWO NODES, no
    connection of the returned state has [from = to]; and in the fallback
    branch a target equal to the source index [i] is reassigned to
    [(i + 1) mod nodeCount]. *)
Theorem no_self_loop (params : DiagramParams) :
  (selfLoopChance params = 0 ->
   (2 <= JS.round (nodeCount params))%Z ->
   exists st,
     generateDiagram params = Some st /\
     forall c, In c (connections st) ->
       Connection.from c <> Connection.to c) /\
  (forall count i g,
     (0 <= i < count)%Z ->
     JS.ltb (SeededRandom.draw 0 g) (selfLoopChance params) = false ->
     JS.ltb (SeededRandom.draw 1 g) (flowDirectionality params)
       && (i <? count - 1)%Z = false ->
     JS.ltb (SeededRandom.draw 2 g) (backwardConnectionFreq params)
       && (0 <? i)%Z = false ->
     fst (chooseTarget params count i g)
     = let targetIndex := JS.floor (SeededRandom.draw 3 g * IZR count) in
       if (targetIndex =? i)%Z then ((i + 1) mod count)%Z else targetIndex).
Proof.
  split.
  - intros Hself Hcount.
    destruct (generateDiagram_spec params) as (st & Hgen & Hwf).
    eexists. split; [exact Hgen |]. cbn [connections].
    intros c Hc.
    destruct (Wellformed_In _ _ _ _ _ Hwf Hc)
      as (i & Hi & Hfrom & g & _ & _ & _ & Hto & _).
    rewrite Hfrom, Hto. intros Heq. symmetry in Heq. revert Heq.
    apply chooseTarget_no_self; [lra | exact Hcount | exact Hi].
  - intros count i g Hi H1 H2 H3.
    rewrite (chooseTarget_fallback params count i g H1 H2 H3).
    cbv zeta. now rewrite Z.rem_mod_nonneg by lia.
Qed.

Lemma no_self_loop_witness :
  exists st,
    generateDiagram threeNodes = Some st /\
    forall c, In c (connections st) -> Connection.from c <> Connection.to c.
Proof.
  apply (no_self_loop threeNodes).
  - reflexivity.
  - change (nodeCount threeNodes) with (IZR 3). rewrite round_IZR. lia.
Defined.

(** ** Self loops *)





(** ** Node placement *)

(** The fields of a pushed node, in terms of the six draws of its
    iteration. *)
Lemma makeNode_fields (params : DiagramParams) (count i : Z)
    (g : SeededRandom.t) :
  let n := fst (makeNode params count i g) in
  let W := canvasWidth params in
  let H := canvasHeight params in
  Node.width n
  = (nodeMinWidth params
     + SeededRandom.draw 4 g
       * (nodeMinWidth params
          + (nodeMaxWidth params - nodeMinWidth params) * sizeVariation params
          - nodeMinWidth params)) * nodeScale params /\
  Node.height n
  = (nodeMinHeight params
     + SeededRandom.draw 5 g
       * (nodeMinHeight params
          + (nodeMaxHeight params - nodeMinHeight params)
            * sizeVariation params
          - nodeMinHeight params)) * nodeScale params /\
  Node.x n
  = Rmax margin
      (Rmin (W - margin - Node.width n)
         (margin + (W - 2 * margin) * (IZR i / IZR count)
          + (SeededRandom.draw 0 g - 0.5) * (W - 2 * margin)
            * positionJitter params
          + (SeededRandom.draw 2 g - 0.5) * (W - 2 * margin)
            * layoutSpread params
          + (horizontalBias params - 0.5) * (W - 2 * margin) * 0.3)) /\
  Node.y n
  = Rmax margin
      (Rmin (H - margin - Node.height n)
         (margin + (H - 2 * margin) * 0.5
          + (SeededRandom.draw 1 g - 0.5) * (H - 2 * margin)
            * positionJitter params
          + (SeededRandom.draw 3 g - 0.5) * (H - 2 * margin)
            * layoutSpread params
          + (verticalBias params - 0.5) * (H - 2 * margin) * 0.3)).
Proof.
  repeat split; reflexivity.
Qed.


Lemma nodesOf_made (params : DiagramParams) (n : Node.t) :
  In n (nodesOf params) ->
  exists i g,
    (0 <= i < JS.round (nodeCount params))%Z /\
    n = fst (makeNode params (JS.round (nodeCount params)) i g).
Proof.
  intros Hn. apply genNodes_made in Hn.
  destruct Hn as (i & g & Hi & Hn). apply upto_In in Hi. now exists i, g.
Qed.


Lemma draw_unit (k : nat) (g : SeededRandom.t) :
  0 <= SeededRandom.draw k g < 1.
Proof.
  unfold SeededRandom.draw.
  destruct (SeededRandom.random (SeededRandom.advance k g)) as [r g'] eqn:Hr.
  apply random_unit in Hr. exact Hr.
Qed.






(** ** Renderers *)

Lemma gtb_true (a b : R) : b < a -> JS.gtb a b = true.
Proof. intros H. now apply ltb_true. Qed.

Lemma gtb_false (a b : R) : a <= b -> JS.gtb a b = false.
Proof. intros H. apply ltb_false. lra. Qed.

Lemma atan2_east (v : R) : 0 < v -> JS.atan2 0 v = 0.
Proof.
  intros Hv. unfold JS.atan2.
  destruct (Rlt_dec 0 v) as [_ | Hn]; [| contradiction].
  unfold Rdiv. rewrite Rmult_0_l. apply atan_0.
Qed.

Lemma atan2_west (v : R) : v < 0 -> JS.atan2 0 v = PI.
Proof.
  intros Hv. unfold JS.atan2.
  destruct (Rlt_dec 0 v) as [Hp | _]; [lra |].
  destruct (Rlt_dec v 0) as [_ | Hn]; [| contradiction].
  destruct (Rle_dec 0 0) as [_ | Hn]; [| lra].
  unfold Rdiv. rewrite Rmult_0_l, atan_0. ring.
Qed.

(** Leaving a node towards a node on the same row, to its right: the
    connection point lies on the right edge, [gap] further. *)
Lemma getConnectionPoint_east (a b : Node.t) (gap : R) :
  Node.y b + Node.height b / 2 = Node.y a + Node.height a / 2 ->
  Node.x a + Node.width a / 2 < Node.x b + Node.width b / 2 ->
  getConnectionPoint a b gap
  = {| Point.x := Node.x a + Node.width a + gap;
       Point.y := Node.y a + Node.height a / 2 |}.
Proof.
  intros Hrow Hright. unfold getConnectionPoint.
  rewrite Hrow.
  replace (Node.y a + Node.height a / 2 - (Node.y a + Node.height a / 2))
    with 0 by ring.
  rewrite atan2_east by lra.
  rewrite cos_0, sin_0, Rabs_R1, Rabs_R0.
  rewrite gtb_true by lra. rewrite gtb_true by lra.
  cbn [fst snd]. f_equal; field.
Qed.

(** Leaving a node towards a node on the same row, to its left: the
    connection point lies on the left edge, [gap] further. *)
Lemma getConnectionPoint_west (a b : Node.t) (gap : R) :
  Node.y b + Node.height b / 2 = Node.y a + Node.height a / 2 ->
  Node.x b + Node.width b / 2 < Node.x a + Node.width a / 2 ->
  getConnectionPoint a b gap
  = {| Point.x := Node.x a - gap;
       Point.y := Node.y a + Node.height a / 2 |}.
Proof.
  intros Hrow Hleft. unfold getConnectionPoint.
  rewrite Hrow.
  replace (Node.y a + Node.height a / 2 - (Node.y a + Node.height a / 2))
    with 0 by ring.
  rewrite atan2_west by lra.
  rewrite cos_PI, sin_PI, Rabs_R0.
  replace (Rabs (-1)) with 1
    by (unfold Rabs; destruct (Rcase_abs (-1)); lra).
  rewrite gtb_true by lra. rewrite gtb_false by lra.
  cbn [fst snd]. f_equal; field.
Qed.

Lemma sqrt_eq (e d : R) : 0 <= d -> e = d * d -> sqrt e = d.
Proof. intros Hd ->. now apply sqrt_square. Qed.

(** The trimmed end points and the re-projected control points of the
    fixture. *)
Lemma trim_twoNodes :
  trim twoNodes 10 link
  = Some {| startPoint := {| Point.x := 170; Point.y := 110 |};
            endPoint := {| Point.x := 290; Point.y := 110 |};
            cp1 := {| Point.x := 202.5; Point.y := 127.5 |};
            cp2 := {| Point.x := 257.5; Point.y := 142.5 |} |}.
Proof.
  assert (Hfrom : findNode twoNodes (Connection.from link) = Some leftNode)
    by reflexivity.
  assert (Hto : findNode twoNodes (Connection.to link) = Some rightNode)
    by reflexivity.
  unfold trim. rewrite Hfrom, Hto.
  rewrite getConnectionPoint_east by (cbn; lra).
  rewrite getConnectionPoint_west by (cbn; lra).
  cbn [leftNode rightNode link Node.x Node.y Node.width Node.height
       Point.x Point.y Connection.controlPoint1 Connection.controlPoint2].
  replace (sqrt ((300 + 60 / 2 - (100 + 60 / 2))
                 * (300 + 60 / 2 - (100 + 60 / 2))
                 + (100 + 20 / 2 - (100 + 20 / 2))
                   * (100 + 20 / 2 - (100 + 20 / 2))))
    with 200.
  2:{ symmetry. apply sqrt_eq; [lra | field]. }
  replace (sqrt ((100 + 60 + 10 - (100 + 60 / 2)) ^ 2
                 + (100 + 20 / 2 - (100 + 20 / 2)) ^ 2))
    with 40.
  2:{ symmetry. apply sqrt_eq; [lra | field]. }
  replace (sqrt ((300 + 60 / 2 - (300 - 10)) ^ 2
                 + (100 + 20 / 2 - (100 + 20 / 2)) ^ 2))
    with 40.
  2:{ symmetry. apply sqrt_eq; [lra | field]. }
  unfold JS.eqb. destruct (Req_dec_T 200 0) as [H | _]; [lra |].
  unfold lerp. f_equal. f_equal. all: f_equal; lra.
Qed.

Lemma strokeWithArrow_arrow (params : DiagramParams) (conn : Connection.t)
    (tr : Trim) (c1 c2 : Point.t) :
  Connection.hasArrow conn = true ->
  strokeWithArrow params conn tr c1 c2
  = [Curve (startPoint tr) c1 c2 (endPoint tr) (dashOf params conn)
       (strokeColor params) (connectionThickness params);
     arrowOn params tr c1 c2].
Proof.
  intros Harrow. unfold strokeWithArrow. now rewrite Harrow.
Qed.

Lemma strokeWithArrow_head (params : DiagramParams) (conn : Connection.t)
    (tr : Trim) (c1 c2 : Point.t) :
  exists rest,
    strokeWithArrow params conn tr c1 c2
    = Curve (startPoint tr) c1 c2 (endPoint tr) (dashOf params conn)
        (strokeColor params) (connectionThickness params) :: rest.
Proof. unfold strokeWithArrow. now eexists. Qed.

(** What each backend puts out for the fixture. *)
Lemma twoNodes_rendered :
  exists tr,
    trim twoNodes (arrowGap defaultParams) link = Some tr /\
    drawDiagram defaultParams twoNodes
    = [curveStored defaultParams link tr;
       arrowOnStored defaultParams link tr] /\
    generateSvgFromDiagramState defaultParams twoNodes
    = [curveRescaled defaultParams link tr;
       arrowOn defaultParams tr (cp1 tr) (cp2 tr)] /\
    startPoint tr = {| Point.x := 170; Point.y := 110 |} /\
    endPoint tr = {| Point.x := 290; Point.y := 110 |} /\
    cp1 tr = {| Point.x := 202.5; Point.y := 127.5 |} /\
    cp2 tr = {| Point.x := 257.5; Point.y := 142.5 |}.
Proof.
  eexists. split; [exact trim_twoNodes |].
  unfold drawDiagram, generateSvgFromDiagramState, drawConnection,
    svgConnection.
  cbn [twoNodes connections flat_map].
  change (arrowGap defaultParams) with 10. rewrite trim_twoNodes.
  rewrite !strokeWithArrow_arrow by reflexivity.
  now repeat split.
Qed.

(** C2 at the fixture [twoNodes]: the vector backend strokes the curve
    through the re-projected control points (202.5, 127.5) and
    (257.5, 142.5); the raster backend computes the same two points and then
    strokes through the stored ones, (196, 124) and (264, 136).  The two
    backends do not draw the same curve. *)
Theorem raster_strokes_stored_points :
  exists tr rasterCurve rasterArrow vectorCurve vectorArrow,
    trim twoNodes (arrowGap defaultParams) link = Some tr /\
    drawDiagram defaultParams twoNodes = [rasterCurve; rasterArrow] /\
    generateSvgFromDiagramState defaultParams twoNodes
    = [vectorCurve; vectorArrow] /\
    vectorCurve = curveRescaled defaultParams link tr /\
    rasterCurve = curveStored defaultParams link tr /\
    rasterCurve <> curveRescaled defaultParams link tr /\
    rasterCurve <> vectorCurve.
Proof.
  destruct twoNodes_rendered
    as (tr & Htr & Hraster & Hvector & _ & _ & Hc1 & _).
  assert (Hne : curveStored defaultParams link tr
                <> curveRescaled defaultParams link tr).
  { unfold curveStored, curveRescaled. rewrite Hc1. intros Heq.
    injection Heq as Hx _. cbn in Hx. lra. }
  exists tr. do 4 eexists.
  split; [exact Htr |]. split; [exact Hraster |]. split; [exact Hvector |].
  split; [reflexivity |]. split; [reflexivity |]. split; exact Hne.
Qed.






(** * Further properties of the sources *)

(** ** Interpolation, easing and the animation loop *)

Lemma lerp_between (a b t : R) :
  0 <= t <= 1 -> Rmin a b <= lerp a b t <= Rmax a b.
Proof.
  intros Ht. unfold lerp, Rmin, Rmax.
  destruct (Rle_dec a b); split; nra.
Qed.





Lemma orStr_same (l : option string) : JS.orStr l l = l.
Proof. unfold JS.orStr. now destruct (JS.truthy l). Qed.

Lemma interpolateNode_same (n : Node.t) (p : R) : interpolateNode n n p = n.
Proof.
  destruct n. unfold interpolateNode. cbn.
  now rewrite !lerp_same, orStr_same.
Qed.

Lemma interpolatePoint_same (a : Point.t) (p : R) :
  interpolatePoint a a p = a.
Proof. destruct a. unfold interpolatePoint. cbn. now rewrite !lerp_same. Qed.

Lemma interpolateConn_same (c : Connection.t) (p : R) :
  interpolateConn c c p = c.
Proof.
  destruct c. unfold interpolateConn. cbn.
  now rewrite lerp_same, !interpolatePoint_same.
Qed.


Lemma interpolateList_same {A : Type} (mix : A -> A -> R -> A)
    (l : list A) (p : R) :
  (forall a, mix a a p = a) ->
  interpolateList mix l l p = Some l.
Proof.
  intros Hmix.
  destruct (interpolateList_spec mix l l p) as (l' & Hl & Hll & Hnth).
  rewrite Hl. f_equal. apply nth_error_ext. intros i.
  destruct (Nat.lt_ge_cases i (List.length l)) as [Hlt | Hge].
  - destruct (Hnth i) as (f & t & Hi & [Hf _] & [Ht _]); [lia |].
    specialize (Hf Hlt). specialize (Ht Hlt).
    rewrite Hf in Ht. injection Ht as <-.
    now rewrite Hi, Hmix.
  - transitivity (@None A); [| symmetry]; apply nth_error_None; lia.
Qed.

(** X2.  Interpolating a state towards itself returns that state, whatever
    the progress: an animation whose target equals the current state shows
    the same diagram on every frame. *)
Theorem interpolate_same (st : DiagramState) (p : R) :
  interpolateStates st st p = Some st.
Proof.
  unfold interpolateStates.
  rewrite interpolateList_same by (intros; apply interpolateNode_same).
  rewrite interpolateList_same by (intros; apply interpolateConn_same).
  now destruct st.
Qed.



Lemma easeInOutCubic_0 : easeInOutCubic 0 = 0.
Proof. rewrite easeInOutCubic_low by lra. ring. Qed.

Lemma easeInOutCubic_1 : easeInOutCubic 1 = 1.
Proof. rewrite easeInOutCubic_high by lra. field. Qed.

(** X4.  [easeInOutCubic] maps the interval from 0 to 1 into itself, takes
    the value one half at one half, and is point-symmetric about that point:
    [easeInOutCubic (1 - t) = 1 - easeInOutCubic t] for every [t]. *)
Theorem easeInOutCubic_symmetric :
  (forall t, 0 <= t <= 1 -> 0 <= easeInOutCubic t <= 1) /\
  easeInOutCubic (1 / 2) = 1 / 2 /\
  (forall t, easeInOutCubic (1 - t) = 1 - easeInOutCubic t).
Proof.
  split; [| split].
  - intros t [H0 H1]. split.
    + rewrite <- easeInOutCubic_0. apply easeInOutCubic_monotone; lra.
    + rewrite <- easeInOutCubic_1. apply easeInOutCubic_monotone; lra.
  - rewrite easeInOutCubic_high by lra. field.
  - intros t.
    destruct (Rlt_dec t (1 / 2)) as [Hlo | Hhi].
    + rewrite (easeInOutCubic_low t) by lra.
      rewrite easeInOutCubic_high by lra. field.
    + destruct (Req_dec t (1 / 2)) as [-> | Hne].
      * replace (1 - 1 / 2) with (1 / 2) by field.
        rewrite easeInOutCubic_high by lra. field.
      * rewrite (easeInOutCubic_high t) by lra.
        rewrite easeInOutCubic_low by lra. field.
Qed.

Lemma easeInOutCubic_symmetric_witness :
  0 <= easeInOutCubic (1 / 4) <= 1.
Proof.
  apply easeInOutCubic_symmetric. lra.
Defined.





(** X6.  With an [animationSpeed] of zero or less and a progress below 1 the
    animation loop never commits: however many frames are run, it is still
    requesting the next one. *)
Theorem animation_stalls (params : DiagramParams) (cur tgt : DiagramState)
    (fuel : nat) (progress : R) :
  animationSpeed params <= 0 -> progress < 1 ->
  animate fuel params cur tgt progress = Animating.
Proof.
  intros Hspeed. revert progress.
  induction fuel as [| fuel IH]; intros progress Hp; [reflexivity |].
  cbn [animate].
  destruct (interpolateStates_spec cur tgt
              (easeInOutCubic (nextProgress params progress)))
    as (ns & cs & Hr & _).
  rewrite Hr.
  assert (Hnext : nextProgress params progress < 1).
  { unfold nextProgress, Rmin.
    destruct (Rle_dec 1 (progress + animationSpeed params * 0.1)); lra. }
  destruct (JS.ltb (nextProgress params progress) 1) eqn:Hlt.
  - now rewrite IH.
  - apply ltb_false in Hlt. contradiction.
Qed.

Lemma animation_stalls_witness :
  animate 50 (withAnimationSpeed defaultParams 0) fiveNodes eightNodes (1 / 2)
  = Animating.
Proof.
  apply animation_stalls; cbn; lra.
Defined.



(** ** Bezier evaluation *)




Lemma cubic_derivative (a b c d t : R) :
  derivable_pt_lim
    (fun u => (1 - u) * (1 - u) * (1 - u) * a
              + 3 * ((1 - u) * (1 - u)) * u * b
              + 3 * (1 - u) * (u * u) * c + u * u * u * d)
    t
    (3 * ((1 - t) * (1 - t)) * (b - a) + 6 * (1 - t) * t * (c - b)
     + 3 * (t * t) * (d - c)).
Proof.
  set (An := fun k : nat =>
               match k with
               | 0%nat => a
               | 1%nat => 3 * (b - a)
               | 2%nat => 3 * (a - 2 * b + c)
               | 3%nat => d - 3 * c + 3 * b - a
               | _ => 0
               end).
  intros eps Heps.
  destruct (derivable_pt_lim_finite_sum An t 3 eps Heps) as [delta Hdelta].
  exists delta. intros h Hh Hsmall.
  specialize (Hdelta h Hh Hsmall).
  cbn [sum_f_R0 Init.Nat.pred An pow INR] in Hdelta.
  match goal with
  | |- Rabs ?e < eps =>
      match type of Hdelta with
      | Rabs ?e' < eps => replace e with e'; [exact Hdelta |]
      end
  end.
  field. exact Hh.
Qed.

(** X9.  [getTangentOnBezier] is the first derivative of [getPointOnBezier]
    with respect to [t], coordinate by coordinate, at every [t]. *)
Theorem tangent_is_derivative (p0 p1 p2 p3 : Point.t) (t : R) :
  derivable_pt_lim
    (fun u => Point.x (getPointOnBezier p0 p1 p2 p3 u)) t
    (Point.x (getTangentOnBezier p0 p1 p2 p3 t)) /\
  derivable_pt_lim
    (fun u => Point.y (getPointOnBezier p0 p1 p2 p3 u)) t
    (Point.y (getTangentOnBezier p0 p1 p2 p3 t)).
Proof.
  split; unfold getPointOnBezier, getTangentOnBezier;
    cbn [Point.x Point.y]; apply cubic_derivative.
Qed.

(** ** Connection points on node edges *)

Lemma hypot_pos (x y : R) : x <> 0 \/ y <> 0 -> 0 < sqrt (x * x + y * y).
Proof.
  intros H. apply sqrt_lt_R0. destruct H; nra.
Qed.

Lemma hypot_sqr (x y : R) :
  sqrt (x * x + y * y) * sqrt (x * x + y * y) = x * x + y * y.
Proof. apply sqrt_sqrt. nra. Qed.

Lemma sqrt_slope (x y : R) :
  x <> 0 ->
  sqrt (1 + (y / x)²) = sqrt (x * x + y * y) / Rabs x.
Proof.
  intros Hx.
  assert (Ha : 0 < Rabs x) by now apply Rabs_pos_lt.
  pose proof (hypot_pos x y (or_introl Hx)) as Hd.
  pose proof (hypot_sqr x y) as Hdd.
  apply sqrt_lem_1.
  - unfold Rsqr. nra.
  - apply Rlt_le. now apply Rdiv_lt_0_compat.
  - unfold Rsqr.
    assert (Hsq : Rabs x * Rabs x = x * x).
    { unfold Rabs. destruct (Rcase_abs x); ring. }
    replace (sqrt (x * x + y * y) / Rabs x * (sqrt (x * x + y * y) / Rabs x))
      with (sqrt (x * x + y * y) * sqrt (x * x + y * y)
            / (Rabs x * Rabs x)) by (field; lra).
    rewrite Hdd, Hsq. field. exact Hx.
Qed.

(** The angle returned by [JS.atan2] points along [(x, y)]. *)
Lemma atan2_polar (y x : R) :
  x <> 0 \/ y <> 0 ->
  cos (JS.atan2 y x) = x / sqrt (x * x + y * y) /\
  sin (JS.atan2 y x) = y / sqrt (x * x + y * y).
Proof.
  intros Hxy.
  pose proof (hypot_pos x y Hxy) as Hd.
  unfold JS.atan2.
  destruct (Rlt_dec 0 x) as [Hpos | Hnpos].
  - rewrite cos_atan, sin_atan, sqrt_slope by lra.
    rewrite Rabs_right by lra. split; field; lra.
  - destruct (Rlt_dec x 0) as [Hneg | Hnneg].
    + assert (Hc : cos (atan (y / x)) = - x / sqrt (x * x + y * y)).
      { rewrite cos_atan, sqrt_slope by lra.
        rewrite Rabs_left by lra. field; lra. }
      assert (Hs : sin (atan (y / x)) = - y / sqrt (x * x + y * y)).
      { rewrite sin_atan, sqrt_slope by lra.
        rewrite Rabs_left by lra. field; lra. }
      destruct (Rle_dec 0 y).
      * rewrite neg_cos, neg_sin, Hc, Hs. split; field; lra.
      * rewrite cos_minus, sin_minus, cos_PI, sin_PI, Hc, Hs.
        split; field; lra.
    + assert (Hx0 : x = 0) by lra. subst x.
      assert (Hy : y <> 0) by (destruct Hxy; [lra | assumption]).
      replace (0 * 0 + y * y) with (y²) by (unfold Rsqr; ring).
      rewrite sqrt_Rsqr_abs.
      destruct (Rlt_dec 0 y) as [Hyp | Hyn].
      * rewrite cos_PI2, sin_PI2, Rabs_right by lra. split; field; lra.
      * destruct (Rlt_dec y 0) as [Hyneg | Hynn]; [| lra].
        rewrite cos_neg, sin_neg, cos_PI2, sin_PI2, Rabs_left by lra.
        split; field; lra.
Qed.

Lemma edge_within_side (hw hh A S : R) :
  0 < hw -> 0 < hh -> Rabs S * (hw / hh) < A ->
  - hh <= hw / A * S <= hh.
Proof.
  intros Hw Hh Hlt.
  assert (HS : 0 <= Rabs S) by apply Rabs_pos.
  assert (Hr : 0 < hw / hh) by now apply Rdiv_lt_0_compat.
  assert (HA : 0 < A) by nra.
  assert (Hprod : Rabs S * hw < A * hh).
  { replace (Rabs S * hw) with (Rabs S * (hw / hh) * hh) by (field; lra).
    nra. }
  assert (Hq : 0 < hw / A) by now apply Rdiv_lt_0_compat.
  assert (HqA : hw / A * A = hw) by (field; lra).
  assert (Habs : - Rabs S <= S <= Rabs S).
  { unfold Rabs. destruct (Rcase_abs S); lra. }
  assert (Hbound : hw / A * Rabs S <= hh).
  { apply Rmult_le_reg_r with hw; [exact Hw |]. nra. }
  split; nra.
Qed.

Lemma edge_within_top (hw hh C S : R) :
  0 < hw -> 0 < hh -> S * S + C * C = 1 ->
  ~ Rabs S * (hw / hh) < Rabs C ->
  - hw <= hh / Rabs S * C <= hw.
Proof.
  intros Hw Hh Hunit Hnot.
  assert (HC : 0 <= Rabs C) by apply Rabs_pos.
  assert (HS : 0 <= Rabs S) by apply Rabs_pos.
  assert (Hr : 0 < hw / hh) by now apply Rdiv_lt_0_compat.
  assert (HSpos : 0 < Rabs S).
  { destruct (Req_dec S 0) as [-> | Hne]; [| now apply Rabs_pos_lt].
    exfalso. apply Hnot. rewrite Rabs_R0.
    assert (C <> 0) by nra. pose proof (Rabs_pos_lt C H). lra. }
  assert (Hprod : Rabs C * hh <= Rabs S * hw).
  { replace (Rabs S * hw) with (Rabs S * (hw / hh) * hh) by (field; lra).
    nra. }
  assert (Hq : 0 < hh / Rabs S) by now apply Rdiv_lt_0_compat.
  assert (HqS : hh / Rabs S * Rabs S = hh) by (field; lra).
  assert (Habs : - Rabs C <= C <= Rabs C).
  { unfold Rabs. destruct (Rcase_abs C); lra. }
  assert (Hbound : hh / Rabs S * Rabs C <= hw).
  { apply Rmult_le_reg_r with hh; [exact Hh |]. nra. }
  split; nra.
Qed.

(** X10.  For a node of positive width and height and a zero gap,
    [getConnectionPoint] returns a point on the outline of the node's
    rectangle, whatever the other node is. *)
Theorem connection_point_on_boundary (a b : Node.t) :
  0 < Node.width a -> 0 < Node.height a ->
  onBoundary a (getConnectionPoint a b 0).
Proof.
  intros Hw Hh. unfold getConnectionPoint.
  set (angle := JS.atan2 _ _).
  pose proof (sin2_cos2 angle) as Hunit. unfold Rsqr in Hunit.
  set (hw := Node.width a / 2) in *. set (hh := Node.height a / 2) in *.
  assert (Hhw : 0 < hw) by (unfold hw; lra).
  assert (Hhh : 0 < hh) by (unfold hh; lra).
  unfold onBoundary, JS.gtb, JS.ltb.
  destruct (Rlt_dec (Rabs (sin angle) * (hw / hh)) (Rabs (cos angle)))
    as [Hflat | Hsteep].
  - pose proof (edge_within_side hw hh _ (sin angle) Hhw Hhh Hflat) as Hb.
    left.
    destruct (Rlt_dec 0 _); cbn [fst snd Point.x Point.y];
      (split; [| unfold hh in Hb |- *; lra]); [right | left]; lra.
  - pose proof (edge_within_top hw hh (cos angle) (sin angle) Hhw Hhh Hunit
                  Hsteep) as Hb.
    right.
    destruct (Rlt_dec 0 _); cbn [fst snd Point.x Point.y];
      (split; [| unfold hw in Hb |- *; lra]); [right | left]; lra.
Qed.

Lemma connection_point_on_boundary_witness :
  onBoundary leftNode (getConnectionPoint leftNode rightNode 0).
Proof.
  apply connection_point_on_boundary; cbn; lra.
Defined.

Lemma Rabs_ratio (v d : R) : 0 < d -> Rabs (v / d) = Rabs v / d.
Proof.
  intros Hd. unfold Rdiv. rewrite Rabs_mult, Rabs_inv.
  now rewrite (Rabs_right d) by lra.
Qed.

Lemma flat_test (dx dy d hw hh : R) :
  0 < d -> 0 < hh ->
  (Rabs dy / d * (hw / hh) < Rabs dx / d <-> Rabs dy * hw < Rabs dx * hh).
Proof.
  intros Hd Hh.
  assert (Heq : Rabs dx / d - Rabs dy / d * (hw / hh)
                = (Rabs dx * hh - Rabs dy * hw) / (d * hh))
    by (field; lra).
  assert (Hpos : 0 < d * hh) by nra.
  split; intros H.
  - assert (0 < (Rabs dx * hh - Rabs dy * hw) / (d * hh)) by lra.
    assert (0 < (Rabs dx * hh - Rabs dy * hw) / (d * hh) * (d * hh)) by nra.
    replace ((Rabs dx * hh - Rabs dy * hw) / (d * hh) * (d * hh))
      with (Rabs dx * hh - Rabs dy * hw) in H1 by (field; lra).
    lra.
  - assert (0 < (Rabs dx * hh - Rabs dy * hw) / (d * hh))
      by (apply Rdiv_lt_0_compat; lra).
    lra.
Qed.

(** The four cases of [getConnectionPoint], in closed form. *)
Lemma getConnectionPoint_cases (a b : Node.t) (gap : R) :
  0 < Node.width a -> 0 < Node.height a ->
  centerDx a b <> 0 \/ centerDy a b <> 0 ->
  let dx := centerDx a b in
  let dy := centerDy a b in
  let d := centerDistance a b in
  let cx := Node.x a + Node.width a / 2 in
  let cy := Node.y a + Node.height a / 2 in
  let hw := Node.width a / 2 in
  let hh := Node.height a / 2 in
  (Rabs dy * hw < Rabs dx * hh -> 0 < dx ->
   getConnectionPoint a b gap
   = {| Point.x := Node.x a + Node.width a + gap * (dx / d);
        Point.y := cy + hw * dy / dx + gap * (dy / d) |}) /\
  (Rabs dy * hw < Rabs dx * hh -> dx < 0 ->
   getConnectionPoint a b gap
   = {| Point.x := Node.x a + gap * (dx / d);
        Point.y := cy + hw * dy / dx + gap * (dy / d) |}) /\
  (Rabs dx * hh <= Rabs dy * hw -> 0 < dy ->
   getConnectionPoint a b gap
   = {| Point.x := cx + hh * dx / dy + gap * (dx / d);
        Point.y := Node.y a + Node.height a + gap * (dy / d) |}) /\
  (Rabs dx * hh <= Rabs dy * hw -> dy < 0 ->
   getConnectionPoint a b gap
   = {| Point.x := cx + hh * dx / dy + gap * (dx / d);
        Point.y := Node.y a + gap * (dy / d) |}).
Proof.
  intros Hw Hh Hdiff. cbv zeta.
  unfold centerDistance.
  pose proof (hypot_pos _ _ Hdiff) as Hd.
  destruct (atan2_polar (centerDy a b) (centerDx a b) Hdiff) as [Hc Hs].
  unfold getConnectionPoint.
  change (Node.x b + Node.width b / 2 - (Node.x a + Node.width a / 2))
    with (centerDx a b).
  change (Node.y b + Node.height b / 2 - (Node.y a + Node.height a / 2))
    with (centerDy a b).
  rewrite Hc, Hs. clear Hc Hs.
  set (dx := centerDx a b) in *. set (dy := centerDy a b) in *.
  set (d := sqrt (dx * dx + dy * dy)) in *.
  rewrite !Rabs_ratio by exact Hd.
  assert (Hhh : 0 < Node.height a / 2) by lra.
  pose proof (flat_test dx dy d (Node.width a / 2) (Node.height a / 2)
                Hd Hhh) as Hflat.
  unfold JS.gtb, JS.ltb.
  repeat split; intros Hcase Hsign.
  - destruct (Rlt_dec _ _) as [_ | Hn]; [| tauto].
    destruct (Rlt_dec 0 dx) as [_ | Hn]; [| lra].
    cbn [fst snd]. rewrite (Rabs_right dx) by lra.
    f_equal; field; lra.
  - destruct (Rlt_dec _ _) as [_ | Hn]; [| tauto].
    destruct (Rlt_dec 0 dx) as [Hp | _]; [lra |].
    cbn [fst snd]. rewrite (Rabs_left dx) by lra.
    f_equal; field; lra.
  - destruct (Rlt_dec _ _) as [Hf | _]; [apply Hflat in Hf; lra |].
    destruct (Rlt_dec 0 dy) as [_ | Hn]; [| lra].
    cbn [fst snd]. rewrite (Rabs_right dy) by lra.
    f_equal; field; lra.
  - destruct (Rlt_dec _ _) as [Hf | _]; [apply Hflat in Hf; lra |].
    destruct (Rlt_dec 0 dy) as [Hp | _]; [lra |].
    cbn [fst snd]. rewrite (Rabs_left dy) by lra.
    f_equal; field; lra.
Qed.

(** X11.  Closed form of [getConnectionPoint] for nodes of positive size
    whose centres differ, with [dx], [dy] the offsets between the centres and
    [d] their distance.  When the direction is flatter than the node's
    diagonal ([|dy| * w/2 < |dx| * h/2]) the point is taken on the right edge
    ([dx > 0]) or on the left edge, at height [cy + (w/2) * dy / dx] in both
    cases; otherwise on the bottom edge ([dy > 0]) or on the top edge, at
    abscissa [cx + (h/2) * dx / dy] in both cases.  The gap is then added
    along the unit vector [(dx, dy) / d]. *)
Theorem connection_point_closed_form (a b : Node.t) (gap : R) :
  0 < Node.width a -> 0 < Node.height a ->
  centerDx a b <> 0 \/ centerDy a b <> 0 ->
  let dx := centerDx a b in
  let dy := centerDy a b in
  let d := centerDistance a b in
  let cx := Node.x a + Node.width a / 2 in
  let cy := Node.y a + Node.height a / 2 in
  let hw := Node.width a / 2 in
  let hh := Node.height a / 2 in
  (Rabs dy * hw < Rabs dx * hh -> 0 < dx ->
   getConnectionPoint a b gap
   = {| Point.x := Node.x a + Node.width a + gap * (dx / d);
        Point.y := cy + hw * dy / dx + gap * (dy / d) |}) /\
  (Rabs dy * hw < Rabs dx * hh -> dx < 0 ->
   getConnectionPoint a b gap
   = {| Point.x := Node.x a + gap * (dx / d);
        Point.y := cy + hw * dy / dx + gap * (dy / d) |}) /\
  (Rabs dx * hh <= Rabs dy * hw -> 0 < dy ->
   getConnectionPoint a b gap
   = {| Point.x := cx + hh * dx / dy + gap * (dx / d);
        Point.y := Node.y a + Node.height a + gap * (dy / d) |}) /\
  (Rabs dx * hh <= Rabs dy * hw -> dy < 0 ->
   getConnectionPoint a b gap
   = {| Point.x := cx + hh * dx / dy + gap * (dx / d);
        Point.y := Node.y a + gap * (dy / d) |}).
Proof.
  intros Hw Hh Hdiff.
  exact (getConnectionPoint_cases a b gap Hw Hh Hdiff).
Qed.

Lemma connection_point_closed_form_witness :
  getConnectionPoint lowerRightNode leftNode 10
  = {| Point.x :=
         Node.x lowerRightNode
         + 10 * (centerDx lowerRightNode leftNode
                 / centerDistance lowerRightNode leftNode);
       Point.y :=
         Node.y lowerRightNode + Node.height lowerRightNode / 2
         + Node.width lowerRightNode / 2 * centerDy lowerRightNode leftNode
           / centerDx lowerRightNode leftNode
         + 10 * (centerDy lowerRightNode leftNode
                 / centerDistance lowerRightNode leftNode) |}.
Proof.
  destruct (connection_point_closed_form lowerRightNode leftNode 10)
    as (_ & Hleft & _).
  - cbn. lra.
  - cbn. lra.
  - left. unfold centerDx. cbn. lra.
  - apply Hleft.
    + unfold centerDx, centerDy. cbn.
      unfold Rabs. repeat destruct (Rcase_abs _); lra.
    + unfold centerDx. cbn. lra.
Defined.

(** X12.  Under the hypotheses of the closed form: when the connection
    leaves to the right or downwards, the point returned by
    [getConnectionPoint] lies on the straight line through the two centres;
    when it leaves to the left or upwards and the centres are not aligned on
    an axis, it does not (the offset along the edge has the sign of the
    opposite direction). *)
Theorem connection_point_alignment (a b : Node.t) (gap : R) :
  0 < Node.width a -> 0 < Node.height a ->
  centerDx a b <> 0 \/ centerDy a b <> 0 ->
  let dx := centerDx a b in
  let dy := centerDy a b in
  let hw := Node.width a / 2 in
  let hh := Node.height a / 2 in
  ((Rabs dy * hw < Rabs dx * hh /\ 0 < dx) \/
   (Rabs dx * hh <= Rabs dy * hw /\ 0 < dy) ->
   onCenterLine a b (getConnectionPoint a b gap)) /\
  ((Rabs dy * hw < Rabs dx * hh /\ dx < 0 /\ dy <> 0) \/
   (Rabs dx * hh <= Rabs dy * hw /\ dy < 0 /\ dx <> 0) ->
   ~ onCenterLine a b (getConnectionPoint a b gap)).
Proof.
  intros Hw Hh Hdiff. cbv zeta.
  destruct (getConnectionPoint_cases a b gap Hw Hh Hdiff)
    as (Hright & Hleft & Hbottom & Htop).
  cbv zeta in Hright, Hleft, Hbottom, Htop.
  pose proof (hypot_pos _ _ Hdiff) as Hd.
  fold (centerDistance a b) in Hd.
  set (dx := centerDx a b) in *. set (dy := centerDy a b) in *.
  set (d := centerDistance a b) in *.
  split.
  - intros [[Hflat Hsign] | [Hsteep Hsign]].
    + rewrite (Hright Hflat Hsign). unfold onCenterLine.
      cbn [Point.x Point.y]. fold dx dy. field. lra.
    + rewrite (Hbottom Hsteep Hsign). unfold onCenterLine.
      cbn [Point.x Point.y]. fold dx dy. field. lra.
  - intros [(Hflat & Hsign & Hne) | (Hsteep & Hsign & Hne)].
    + rewrite (Hleft Hflat Hsign). unfold onCenterLine.
      cbn [Point.x Point.y]. fold dx dy. intros Heq.
      assert (Hzero : Node.width a * dy = 0).
      { replace (Node.width a * dy)
          with ((Node.y a + Node.height a / 2 + Node.width a / 2 * dy / dx
                 + gap * (dy / d) - (Node.y a + Node.height a / 2)) * dx
                - (Node.x a + gap * (dx / d)
                   - (Node.x a + Node.width a / 2)) * dy)
          by (field; lra).
        rewrite Heq. ring. }
      nra.
    + rewrite (Htop Hsteep Hsign). unfold onCenterLine.
      cbn [Point.x Point.y]. fold dx dy. intros Heq.
      assert (Hzero : Node.height a * dx = 0).
      { replace (Node.height a * dx)
          with ((Node.x a + Node.width a / 2 + Node.height a / 2 * dx / dy
                 + gap * (dx / d) - (Node.x a + Node.width a / 2)) * dy
                - (Node.y a + gap * (dy / d)
                   - (Node.y a + Node.height a / 2)) * dx)
          by (field; lra).
        rewrite <- Heq. ring. }
      nra.
Qed.

Lemma connection_point_alignment_witness :
  onCenterLine leftNode lowerRightNode
    (getConnectionPoint leftNode lowerRightNode 10) /\
  ~ onCenterLine lowerRightNode leftNode
      (getConnectionPoint lowerRightNode leftNode 10).
Proof.
  split.
  - apply (connection_point_alignment leftNode lowerRightNode 10).
    + cbn. lra.
    + cbn. lra.
    + left. unfold centerDx. cbn. lra.
    + left. unfold centerDx, centerDy. cbn. split; [| lra].
      unfold Rabs. repeat destruct (Rcase_abs _); lra.
  - apply (connection_point_alignment lowerRightNode leftNode 10).
    + cbn. lra.
    + cbn. lra.
    + left. unfold centerDx. cbn. lra.
    + left. unfold centerDx, centerDy. cbn. split; [| split; lra].
      unfold Rabs. repeat destruct (Rcase_abs _); lra.
Defined.

(** ** The seeded generator and the node loop *)

(** [range(min, max)] with [min <= max] returns a value between
    [min] and [max], below [max] when [min < max], and consumes exactly one
    draw. *)
Theorem range_bounds (g : SeededRandom.t) (min max : R) :
  min <= max ->
  min <= fst (SeededRandom.range g min max) <= max /\
  (min < max -> fst (SeededRandom.range g min max) < max) /\
  SeededRandom.seed (snd (SeededRandom.range g min max))
  = SeededRandom.seed g + 1.
Proof.
  intros Hle. unfold SeededRandom.range.
  destruct (SeededRandom.random g) as [r g'] eqn:Hr.
  pose proof (random_seed _ _ _ Hr) as Hseed.
  apply random_unit in Hr. cbn [fst snd].
  split; [split; nra |]. split; [intros Hlt; nra | exact Hseed].
Qed.

Lemma range_bounds_witness :
  60 <= fst (SeededRandom.range (SeededRandom.create 42) 60 96) <= 96.
Proof.
  apply (range_bounds (SeededRandom.create 42) 60 96). lra.
Defined.



Lemma Some_eq {A : Type} (a b : A) : Some a = Some b -> a = b.
Proof. now intros [= ->]. Qed.

Lemma advance_add (m k : nat) (g : SeededRandom.t) :
  SeededRandom.advance k (SeededRandom.advance m g)
  = SeededRandom.advance (m + k) g.
Proof.
  revert g. induction m as [| m IH]; intros g; [reflexivity |].
  cbn [SeededRandom.advance Nat.add]. apply IH.
Qed.

Lemma draw_advance (m k : nat) (g : SeededRandom.t) :
  SeededRandom.draw k (SeededRandom.advance m g)
  = SeededRandom.draw (m + k) g.
Proof. unfold SeededRandom.draw. now rewrite advance_add. Qed.

Lemma makeNode_rng (params : DiagramParams) (count i : Z)
    (g : SeededRandom.t) :
  snd (makeNode params count i g) = SeededRandom.advance 6 g.
Proof. reflexivity. Qed.

(** The node loop hands node [k] the generator advanced by [6 * k] draws. *)
Lemma genNodes_nth (params : DiagramParams) (count : Z) (idx : list Z)
    (g : SeededRandom.t) (k : nat) (i : Z) :
  nth_error idx k = Some i ->
  nth_error (fst (genNodes params count idx g)) k
  = Some (fst (makeNode params count i (SeededRandom.advance (6 * k) g))).
Proof.
  revert g k i. induction idx as [| j rest IH]; intros g k i Hk.
  - destruct k; discriminate.
  - cbn [genNodes].
    pose proof (makeNode_rng params count j g) as Hrng.
    destruct (makeNode params count j g) as [n g1] eqn:Hn.
    cbn [snd] in Hrng. subst g1.
    specialize (IH (SeededRandom.advance 6 g)).
    destruct (genNodes params count rest (SeededRandom.advance 6 g))
      as [ns g2].
    cbn [fst] in *.
    destruct k as [| k].
    + cbn [nth_error] in Hk |- *. injection Hk as <-.
      change (6 * 0)%nat with 0%nat. cbn [SeededRandom.advance].
      now rewrite Hn.
    + cbn [nth_error] in Hk |- *. rewrite (IH k i Hk).
      rewrite advance_add.
      now replace (6 + 6 * k)%nat with (6 * S k)%nat by lia.
Qed.

Lemma nodesOf_nth (params : DiagramParams) (k : nat) :
  (Z.of_nat k < JS.round (nodeCount params))%Z ->
  nth_error (nodesOf params) k
  = Some (fst (makeNode params (JS.round (nodeCount params)) (Z.of_nat k)
                 (SeededRandom.advance (6 * k)
                    (SeededRandom.create (randomSeed params))))).
Proof.
  intros Hk. unfold nodesOf. apply genNodes_nth.
  apply upto_nth. lia.
Qed.

Lemma generateDiagram_nodes (params : DiagramParams) :
  exists st, generateDiagram params = Some st /\ nodes st = nodesOf params.
Proof.
  destruct (generateDiagram_spec params) as (st & Hgen & _).
  eexists. split; [exact Hgen | reflexivity].
Qed.

(** X14.  The size of the node at index [k] depends only on the seed, on [k]
    and on the size parameters: two parameter records that agree on
    [randomSeed], [nodeMinWidth], [nodeMaxWidth], [nodeMinHeight],
    [nodeMaxHeight], [sizeVariation] and [nodeScale] give nodes of the same
    width and height at every index present in both results, whatever their
    node counts, canvas sizes and layout parameters. *)
Theorem node_size_stable (p q : DiagramParams) :
  randomSeed p = randomSeed q ->
  nodeMinWidth p = nodeMinWidth q -> nodeMaxWidth p = nodeMaxWidth q ->
  nodeMinHeight p = nodeMinHeight q -> nodeMaxHeight p = nodeMaxHeight q ->
  sizeVariation p = sizeVariation q -> nodeScale p = nodeScale q ->
  exists sp sq,
    generateDiagram p = Some sp /\ generateDiagram q = Some sq /\
    forall k n m,
      nth_error (nodes sp) k = Some n -> nth_error (nodes sq) k = Some m ->
      Node.width n = Node.width m /\ Node.height n = Node.height m.
Proof.
  intros Hseed Hminw Hmaxw Hminh Hmaxh Hvar Hscale.
  destruct (generateDiagram_nodes p) as (sp & Hp & Hnp).
  destruct (generateDiagram_nodes q) as (sq & Hq & Hnq).
  exists sp, sq. split; [exact Hp |]. split; [exact Hq |].
  rewrite Hnp, Hnq. intros k n m Hn Hm.
  assert (Hkp : (Z.of_nat k < JS.round (nodeCount p))%Z).
  { assert (H : (k < List.length (nodesOf p))%nat)
      by (apply nth_error_Some; congruence).
    pose proof (f_equal (@List.length Z) (nodesOf_ids p)) as Hl.
    rewrite length_map, upto_length in Hl. lia. }
  assert (Hkq : (Z.of_nat k < JS.round (nodeCount q))%Z).
  { assert (H : (k < List.length (nodesOf q))%nat)
      by (apply nth_error_Some; congruence).
    pose proof (f_equal (@List.length Z) (nodesOf_ids q)) as Hl.
    rewrite length_map, upto_length in Hl. lia. }
  rewrite nodesOf_nth in Hn by exact Hkp.
  rewrite nodesOf_nth in Hm by exact Hkq.
  apply Some_eq in Hn. apply Some_eq in Hm. subst n m.
  destruct (makeNode_fields p (JS.round (nodeCount p)) (Z.of_nat k)
              (SeededRandom.advance (6 * k)
                 (SeededRandom.create (randomSeed p))))
    as (Hwp & Hhp & _).
  destruct (makeNode_fields q (JS.round (nodeCount q)) (Z.of_nat k)
              (SeededRandom.advance (6 * k)
                 (SeededRandom.create (randomSeed q))))
    as (Hwq & Hhq & _).
  rewrite Hwp, Hhp, Hwq, Hhq.
  now rewrite Hseed, Hminw, Hmaxw, Hminh, Hmaxh, Hvar, Hscale.
Qed.

Lemma node_size_stable_witness :
  exists sp sq,
    generateDiagram defaultParams = Some sp /\
    generateDiagram threeNodes = Some sq /\
    forall k n m,
      nth_error (nodes sp) k = Some n -> nth_error (nodes sq) k = Some m ->
      Node.width n = Node.width m /\ Node.height n = Node.height m.
Proof.
  apply (node_size_stable defaultParams threeNodes); reflexivity.
Defined.

(** X15.  With [nodeMinWidth <= nodeMaxWidth], [nodeMinHeight <=
    nodeMaxHeight], [0 <= sizeVariation <= 1] and [0 <= nodeScale], every
    generated node has [nodeMinWidth * nodeScale <= width <= nodeMaxWidth *
    nodeScale] and [nodeMinHeight * nodeScale <= height <= nodeMaxHeight *
    nodeScale]. *)
Theorem node_size_bounds (params : DiagramParams) :
  nodeMinWidth params <= nodeMaxWidth params ->
  nodeMinHeight params <= nodeMaxHeight params ->
  0 <= sizeVariation params <= 1 ->
  0 <= nodeScale params ->
  exists st,
    generateDiagram params = Some st /\
    forall n, In n (nodes st) ->
      nodeMinWidth params * nodeScale params <= Node.width n
      <= nodeMaxWidth params * nodeScale params /\
      nodeMinHeight params * nodeScale params <= Node.height n
      <= nodeMaxHeight params * nodeScale params.
Proof.
  intros Hw Hh Hv Hs.
  destruct (generateDiagram_nodes params) as (st & Hgen & Hn).
  exists st. split; [exact Hgen |]. rewrite Hn.
  intros n Hin.
  destruct (nodesOf_made _ _ Hin) as (i & g & _ & ->).
  destruct (makeNode_fields params (JS.round (nodeCount params)) i g)
    as (Hwn & Hhn & _).
  rewrite Hwn, Hhn.
  pose proof (draw_unit 4 g) as H4. pose proof (draw_unit 5 g) as H5.
  assert (Hdw : 0 <= (nodeMaxWidth params - nodeMinWidth params)
                    * sizeVariation params
                <= nodeMaxWidth params - nodeMinWidth params) by nra.
  assert (Hdh : 0 <= (nodeMaxHeight params - nodeMinHeight params)
                    * sizeVariation params
                <= nodeMaxHeight params - nodeMinHeight params) by nra.
  set (dw := (nodeMaxWidth params - nodeMinWidth params)
             * sizeVariation params) in *.
  set (dh := (nodeMaxHeight params - nodeMinHeight params)
             * sizeVariation params) in *.
  split; split; apply Rmult_le_compat_r; try exact Hs; nra.
Qed.

Lemma node_size_bounds_witness :
  exists st,
    generateDiagram defaultParams = Some st /\
    forall n, In n (nodes st) ->
      60 * 1 <= Node.width n <= 120 * 1 /\
      20 * 1 <= Node.height n <= 40 * 1.
Proof.
  apply (node_size_bounds defaultParams); cbn; lra.
Defined.

(** ** The connection loops *)

Lemma candidate_extends (params : DiagramParams) (ns : list Node.t)
    (count i : Z) (st st' : Gen) :
  candidate params ns count i st = Some st' ->
  exists new,
    emitted st' = emitted st ++ new /\
    Forall (fun c => Connection.from c = i) new /\
    (List.length new <= 2)%nat /\
    (multiConnectionChance params <= 0 -> (List.length new <= 1)%nat) /\
    (connectionDensity params < 0 -> new = []).
Proof.
  unfold candidate.
  destruct (SeededRandom.random (rng st)) as [r0 g0] eqn:H0.
  apply random_unit in H0.
  destruct (JS.gtb r0 (connectionDensity params)) eqn:Hskip.
  { intros [= <-]. exists []. cbn [emitted]. rewrite app_nil_r.
    repeat split; auto; simpl; lia. }
  assert (Hdense : ~ connectionDensity params < 0).
  { apply ltb_false in Hskip. lra. }
  destruct (chooseTarget params count i g0) as [t g1].
  destruct (JS.nth ns i) as [fromNode |]; [| discriminate].
  destruct (JS.nth ns t) as [toNode |]; [| discriminate].
  destruct (SeededRandom.random g1) as [r1 g2].
  destruct (SeededRandom.random g2) as [r2 g3].
  destruct (SeededRandom.random g3) as [rd g4].
  destruct (SeededRandom.random g4) as [ra g5].
  destruct (SeededRandom.random g5) as [rm g6] eqn:Hm.
  apply random_unit in Hm.
  destruct (JS.ltb rm (multiConnectionChance params)) eqn:Hmulti;
    cbn [andb].
  - apply ltb_true in Hmulti.
    destruct (negb (i =? t)%Z).
    + destruct (SeededRandom.random g6) as [rd2 g7].
      destruct (SeededRandom.random g7) as [ra2 g8].
      intros [= <-]. eexists. cbn [emitted]. split; [reflexivity |].
      split; [repeat constructor |]. split; [simpl; lia |].
      split; [intros; lra | intros; contradiction].
    + intros [= <-]. eexists. cbn [emitted]. split; [reflexivity |].
      split; [repeat constructor |]. split; [simpl; lia |].
      split; [intros; simpl; lia | intros; contradiction].
  - intros [= <-]. eexists. cbn [emitted]. split; [reflexivity |].
    split; [repeat constructor |]. split; [simpl; lia |].
    split; [intros; simpl; lia | intros; contradiction].
Qed.

Lemma forEach_preserves {S : Type} (I : S -> Prop) (idx : list Z)
    (body : Z -> S -> option S) :
  (forall i s s', In i idx -> body i s = Some s' -> I s -> I s') ->
  forall s s', forEach idx body s = Some s' -> I s -> I s'.
Proof.
  induction idx as [| i rest IH]; intros Hbody s s' Hrun Hs.
  - cbn in Hrun. now injection Hrun as <-.
  - cbn [forEach] in Hrun.
    destruct (body i s) as [s1 |] eqn:H1; [| discriminate].
    apply (IH (fun j a b Hj => Hbody j a b (or_intror Hj)) s1 s' Hrun).
    apply (Hbody i s s1); [now left | exact H1 | exact Hs].
Qed.

(** The inner loop for source [i] appends connections leaving [i], at most
    [per] for each of its iterations. *)
Lemma inner_loop_extends (params : DiagramParams) (ns : list Node.t)
    (count i : Z) (per : nat) (st st' : Gen) :
  (multiConnectionChance params <= 0 -> (1 <= per)%nat) ->
  (0 < multiConnectionChance params -> (2 <= per)%nat) ->
  forEach (upto (connectionsFromNode params))
    (fun _ => candidate params ns count i) st = Some st' ->
  exists new,
    emitted st' = emitted st ++ new /\
    Forall (fun c => Connection.from c = i) new /\
    (List.length new
     <= per * Z.to_nat (connectionsFromNode params))%nat /\
    (connectionDensity params < 0 -> new = []).
Proof.
  intros Hone Htwo. rewrite <- upto_length.
  generalize (upto (connectionsFromNode params)) as idx.
  intros idx. revert st.
  induction idx as [| j rest IH]; intros st Hrun.
  - cbn in Hrun. injection Hrun as <-. exists [].
    rewrite app_nil_r. repeat split; auto; simpl; lia.
  - cbn [forEach] in Hrun.
    destruct (candidate params ns count i st) as [s1 |] eqn:H1;
      [| discriminate].
    apply candidate_extends in H1.
    destruct H1 as (n1 & He1 & Hf1 & Hl1 & Hm1 & Hd1).
    destruct (IH s1 Hrun) as (n2 & He2 & Hf2 & Hl2 & Hd2).
    exists (n1 ++ n2). rewrite He2, He1, app_assoc.
    split; [reflexivity |]. split; [now apply Forall_app |].
    split.
    + rewrite length_app. cbn [List.length].
      assert (List.length n1 <= per)%nat.
      { destruct (Rle_dec (multiConnectionChance params) 0) as [Hle | Hgt].
        - specialize (Hm1 Hle). specialize (Hone Hle). lia.
        - assert (2 <= per)%nat by (apply Htwo; lra). lia. }
      nia.
    + intros Hd. now rewrite (Hd1 Hd), (Hd2 Hd).
Qed.

Lemma sorted_app (l1 l2 : list Z) :
  StronglySorted Z.le l1 -> StronglySorted Z.le l2 ->
  (forall a b, In a l1 -> In b l2 -> (a <= b)%Z) ->
  StronglySorted Z.le (l1 ++ l2).
Proof.
  intros H1 H2 Hcross. induction H1 as [| a l Hl IH Ha]; [exact H2 |].
  cbn. constructor.
  - apply IH. intros x y Hx Hy. apply Hcross; [now right | exact Hy].
  - apply Forall_app. split; [exact Ha |].
    apply Forall_forall. intros y Hy. apply Hcross; [now left | exact Hy].
Qed.

Lemma sorted_constant (i : Z) (l : list Z) :
  Forall (fun v => v = i) l -> StronglySorted Z.le l.
Proof.
  induction 1 as [| v l Hv Hl IH]; constructor; [exact IH |].
  subst v. eapply Forall_impl; [| exact Hl]. intros ? ->. lia.
Qed.

(** The outer loop over an increasing list of sources keeps the [from]
    fields sorted, and adds at most [per] connections for each iteration of
    the inner loop. *)
Lemma outer_loop_sorted (params : DiagramParams) (ns : list Node.t)
    (count : Z) (per : nat) (idx : list Z) (st st' : Gen) :
  (multiConnectionChance params <= 0 -> (1 <= per)%nat) ->
  (0 < multiConnectionChance params -> (2 <= per)%nat) ->
  StronglySorted Z.le idx ->
  StronglySorted Z.le (map Connection.from (emitted st)) ->
  (forall c j, In c (emitted st) -> In j idx ->
     (Connection.from c <= j)%Z) ->
  forEach idx
    (fun i => forEach (upto (connectionsFromNode params))
                (fun _ => candidate params ns count i)) st = Some st' ->
  StronglySorted Z.le (map Connection.from (emitted st')) /\
  (List.length (emitted st')
   <= List.length (emitted st)
      + per * Z.to_nat (connectionsFromNode params) * List.length idx)%nat /\
  (connectionDensity params < 0 -> emitted st' = emitted st).
Proof.
  intros Hone Htwo Hidx. revert st.
  induction Hidx as [| i rest Hrest IH Hi]; intros st Hsorted Hbelow Hrun.
  - cbn in Hrun. injection Hrun as <-.
    split; [exact Hsorted |]. split; [lia | reflexivity].
  - cbn [forEach] in Hrun.
    destruct (forEach (upto (connectionsFromNode params))
                (fun _ => candidate params ns count i) st)
      as [s1 |] eqn:Hinner; [| discriminate].
    destruct (inner_loop_extends params ns count i per st s1 Hone Htwo
                Hinner) as (new & Hnew & Hfrom & Hlen & Hdense).
    destruct (IH s1) as (Hs & Hl & Hd).
    + rewrite Hnew, map_app. apply sorted_app.
      * exact Hsorted.
      * apply (sorted_constant i). rewrite Forall_map. exact Hfrom.
      * intros a b Ha Hb. apply in_map_iff in Ha. apply in_map_iff in Hb.
        destruct Ha as (ca & <- & Hca). destruct Hb as (cb & <- & Hcb).
        rewrite Forall_forall in Hfrom. rewrite (Hfrom cb Hcb).
        apply Hbelow; [exact Hca | now left].
    + intros c j Hc Hj. rewrite Hnew in Hc. apply in_app_or in Hc.
      destruct Hc as [Hc | Hc].
      * apply Hbelow; [exact Hc | now right].
      * rewrite Forall_forall in Hfrom. rewrite (Hfrom c Hc).
        rewrite Forall_forall in Hi. now apply Hi.
    + exact Hrun.
    + split; [exact Hs |]. split.
      * rewrite Hnew, length_app in Hl. cbn [List.length]. nia.
      * intros Hneg. rewrite (Hd Hneg), Hnew, (Hdense Hneg).
        apply app_nil_r.
Qed.

Lemma upto_sorted (n : Z) : StronglySorted Z.le (upto n).
Proof.
  unfold upto. generalize (Z.to_nat n) as m. intros m.
  generalize 0%nat as s. induction m as [| m IH]; intros s; cbn.
  - constructor.
  - constructor; [apply IH |].
    apply Forall_forall. intros x Hx. apply in_map_iff in Hx.
    destruct Hx as (k & <- & Hk). apply in_seq in Hk. lia.
Qed.

(** The connection list of the returned state, for any bound [per] on the
    connections pushed by one candidate. *)
Lemma generateDiagram_connections (params : DiagramParams) (per : nat) :
  (multiConnectionChance params <= 0 -> (1 <= per)%nat) ->
  (0 < multiConnectionChance params -> (2 <= per)%nat) ->
  exists st,
    generateDiagram params = Some st /\
    StronglySorted Z.le (map Connection.from (connections st)) /\
    (List.length (connections st)
     <= per * Z.to_nat (connectionsFromNode params)
        * Z.to_nat (JS.round (nodeCount params)))%nat /\
    (connectionDensity params < 0 -> connections st = []).
Proof.
  intros Hone Htwo.
  destruct (generateDiagram_spec params) as (st0 & Hgen & _).
  revert Hgen. unfold generateDiagram.
  destruct (genNodes params _ _ _) as [ns g].
  unfold genConnections.
  destruct (forEach _ _ _) as [st |] eqn:Hrun; [| discriminate].
  intros _.
  destruct (outer_loop_sorted params ns (JS.round (nodeCount params)) per
              (upto (JS.round (nodeCount params)))
              {| rng := g; connectionId := 0%Z; emitted := [] |} st
              Hone Htwo (upto_sorted _)) as (Hs & Hl & Hd).
  { constructor. }
  { intros c j []. }
  { exact Hrun. }
  eexists. split; [reflexivity |]. cbn [connections emitted] in *.
  split; [exact Hs |]. split.
  - rewrite upto_length in Hl. cbn [List.length Nat.add] in Hl. exact Hl.
  - exact Hd.
Qed.

(** X16.  The connections of the returned state are listed by source: the
    sequence of their [from] fields is non-decreasing. *)
Theorem connections_sorted_by_source (params : DiagramParams) :
  exists st,
    generateDiagram params = Some st /\
    StronglySorted Z.le (map Connection.from (connections st)).
Proof.
  destruct (generateDiagram_connections params 2) as (st & Hgen & Hs & _);
    try (intros; lia).
  now exists st.
Qed.

(** X17.  The returned state holds at most
    [2 * connectionsFromNode * nodeCount] connections, and at most
    [connectionsFromNode * nodeCount] when [multiConnectionChance <= 0]; it
    holds none when [connectionDensity < 0].  Here [connectionsFromNode] is
    [floor(1 + connectionDensity * branchingFactor * 5)] and [nodeCount] is
    the rounded parameter, both counted as 0 when negative. *)
Theorem connections_count_bound (params : DiagramParams) :
  exists st,
    generateDiagram params = Some st /\
    (List.length (connections st)
     <= 2 * Z.to_nat (connectionsFromNode params)
        * Z.to_nat (JS.round (nodeCount params)))%nat /\
    (multiConnectionChance params <= 0 ->
     (List.length (connections st)
      <= Z.to_nat (connectionsFromNode params)
         * Z.to_nat (JS.round (nodeCount params)))%nat) /\
    (connectionDensity params < 0 -> connections st = []).
Proof.
  destruct (generateDiagram_connections params 2) as (st & Hgen & _ & Hl & Hd);
    try (intros; lia).
  exists st. split; [exact Hgen |]. split; [exact Hl |].
  split; [| exact Hd].
  intros Hmulti.
  destruct (generateDiagram_connections params 1)
    as (st1 & Hgen1 & _ & Hl1 & _).
  - intros; lia.
  - intros; lra.
  - rewrite Hgen in Hgen1. injection Hgen1 as <-. lia.
Qed.


(** ** What the renderers skip *)

Lemma trim_self (state : DiagramState) (gap : R) (conn : Connection.t) :
  Connection.from conn = Connection.to conn -> trim state gap conn = None.
Proof.
  intros Hloop. unfold trim. rewrite <- Hloop.
  destruct (findNode state (Connection.from conn)) as [n |]; [| reflexivity].
  match goal with
  | |- context [JS.eqb (sqrt ?e) 0] => replace e with 0 by ring
  end.
  rewrite sqrt_0. unfold JS.eqb.
  now destruct (Req_dec_T 0 0).
Qed.

(** X19.  Neither renderer draws anything for a connection whose [from] and
    [to] are equal, in any state and with any parameters: self-loops are
    skipped by the zero-distance test (or by the missing-node test). *)
Theorem self_loops_not_drawn (params : DiagramParams) (state : DiagramState)
    (conn : Connection.t) :
  Connection.from conn = Connection.to conn ->
  drawConnection params state conn = [] /\
  svgConnection params state conn = [].
Proof.
  intros Hloop. unfold drawConnection, svgConnection.
  now rewrite (trim_self state (arrowGap params) conn Hloop).
Qed.

Lemma self_loops_not_drawn_witness :
  drawConnection defaultParams twoNodes
    {| Connection.id := 7; Connection.from := 1; Connection.to := 1;
       Connection.curve := 0.6;
       Connection.dashed := true; Connection.hasArrow := true;
       Connection.controlPoint1 := {| Point.x := 330; Point.y := 110 |};
       Connection.controlPoint2 := {| Point.x := 330; Point.y := 110 |} |}
  = [] /\
  svgConnection defaultParams twoNodes
    {| Connection.id := 7; Connection.from := 1; Connection.to := 1;
       Connection.curve := 0.6;
       Connection.dashed := true; Connection.hasArrow := true;
       Connection.controlPoint1 := {| Point.x := 330; Point.y := 110 |};
       Connection.controlPoint2 := {| Point.x := 330; Point.y := 110 |} |}
  = [].
Proof.
  apply self_loops_not_drawn. reflexivity.
Defined.

(** In a list whose ids are [s, s+1, ...], looking a node up by id finds the
    node at that position. *)
Lemma find_by_position (l : list Node.t) (s n : nat) (id : Z) :
  map Node.id l = map Z.of_nat (seq s n) ->
  (Z.of_nat s <= id < Z.of_nat (s + n))%Z ->
  find (fun m => (Node.id m =? id)%Z) l
  = nth_error l (Z.to_nat id - s).
Proof.
  revert s n. induction l as [| m l IH]; intros s n Hids Hid.
  - destruct n; [lia | discriminate].
  - destruct n as [| n]; [discriminate |].
    cbn [map seq] in Hids. injection Hids as Hm Hrest.
    cbn [find]. destruct (Z.eqb_spec (Node.id m) id) as [Heq | Hne].
    + replace (Z.to_nat id - s)%nat with 0%nat by lia. reflexivity.
    + rewrite (IH (S s) n Hrest) by lia.
      replace (Z.to_nat id - s)%nat with (S (Z.to_nat id - S s)) by lia.
      reflexivity.
Qed.

Lemma findNode_generated (params : DiagramParams) (cs : list Connection.t)
    (id : Z) :
  (0 <= id < JS.round (nodeCount params))%Z ->
  findNode {| nodes := nodesOf params; connections := cs |} id
  = JS.nth (nodesOf params) id.
Proof.
  intros Hid. unfold findNode. cbn [nodes].
  rewrite (find_by_position (nodesOf params) 0
             (Z.to_nat (JS.round (nodeCount params))) id).
  - unfold JS.nth. destruct (Z.ltb_spec id 0); [lia |].
    now rewrite Nat.sub_0_r.
  - apply nodesOf_ids.
  - lia.
Qed.

Lemma trim_none_iff (state : DiagramState) (gap : R) (conn : Connection.t)
    (a b : Node.t) :
  findNode state (Connection.from conn) = Some a ->
  findNode state (Connection.to conn) = Some b ->
  (trim state gap conn = None <-> centerDistance a b = 0).
Proof.
  intros Ha Hb. unfold trim. rewrite Ha, Hb.
  change (sqrt _) with (centerDistance a b) at 1.
  unfold JS.eqb.
  destruct (Req_dec_T (centerDistance a b) 0) as [Hz | Hnz].
  - tauto.
  - split; [discriminate | contradiction].
Qed.

(** X20.  In a generated state no connection is dropped for a missing node:
    both end nodes are found by id, and they are the nodes the generator
    placed the control points on.  Given any rendering parameters, either
    renderer then skips a connection exactly when the centres of its two
    nodes coincide. *)
Theorem generated_connections_drawn (params render : DiagramParams) :
  exists st,
    generateDiagram params = Some st /\
    forall c, In c (connections st) ->
      exists a b,
        findNode st (Connection.from c) = Some a /\
        findNode st (Connection.to c) = Some b /\
        JS.nth (nodes st) (Connection.from c) = Some a /\
        JS.nth (nodes st) (Connection.to c) = Some b /\
        (drawConnection render st c = [] <-> centerDistance a b = 0) /\
        (svgConnection render st c = [] <-> centerDistance a b = 0).
Proof.
  destruct (generateDiagram_spec params) as (st & Hgen & Hwf).
  eexists. split; [exact Hgen |]. cbn [connections].
  intros c Hc.
  destruct (Wellformed_In _ _ _ _ _ Hwf Hc) as (i & Hi & Hem).
  pose proof (Emittable_target _ _ _ _ _ Hi Hem) as Hto.
  destruct Hem as (Hfrom & g & a & b & k & _ & Ha & Hb & _).
  exists a, b. cbn [nodes].
  rewrite !findNode_generated by (rewrite ?Hfrom; lia).
  rewrite Hfrom. split; [exact Ha |]. split; [exact Hb |].
  split; [exact Ha |]. split; [exact Hb |].
  assert (Hfa : findNode {| nodes := nodesOf params;
                            connections := emitted st |}
                  (Connection.from c) = Some a).
  { rewrite findNode_generated by (rewrite Hfrom; lia). now rewrite Hfrom. }
  assert (Hfb : findNode {| nodes := nodesOf params;
                            connections := emitted st |}
                  (Connection.to c) = Some b).
  { rewrite findNode_generated by lia. exact Hb. }
  pose proof (trim_none_iff _ (arrowGap render) c a b Hfa Hfb) as Hiff.
  unfold drawConnection, svgConnection.
  destruct (trim _ (arrowGap render) c) as [tr |] eqn:Htr.
  - split; split; intros H.
    + destruct (strokeWithArrow_head render c tr
                  (Connection.controlPoint1 c) (Connection.controlPoint2 c))
        as (rest & Hs).
      rewrite Hs in H. discriminate.
    + apply Hiff in H. discriminate.
    + destruct (strokeWithArrow_head render c tr (cp1 tr) (cp2 tr))
        as (rest & Hs).
      rewrite Hs in H. discriminate.
    + apply Hiff in H. discriminate.
  - split; split; intros _; try reflexivity; now apply Hiff.
Qed.

(** ** XML escaping *)

Lemma replaceAll_append (c : ascii) (repl a b : string) :
  replaceAll c repl (a ++ b)
  = (replaceAll c repl a ++ replaceAll c repl b)%string.
Proof.
  induction a as [| x a IH]; [reflexivity |].
  cbn [append replaceAll]. rewrite IH.
  destruct (Ascii.eqb x c); [| reflexivity].
  generalize (replaceAll c repl a) (replaceAll c repl b). clear.
  intros u v. induction repl as [| y r IHr]; [reflexivity |].
  cbn [append]. now rewrite IHr.
Qed.

Lemma escapeXml_cons (c : ascii) (s : string) :
  escapeXml (String c s) = (escapeChar c ++ escapeXml s)%string.
Proof.
  unfold escapeXml, escapeChar. cbn [replaceAll].
  destruct (Ascii.eqb_spec c "&"%char) as [-> | Hamp].
  { now rewrite !replaceAll_append. }
  cbn [replaceAll].
  destruct (Ascii.eqb_spec c "<"%char) as [-> | Hlt].
  { now rewrite !replaceAll_append. }
  cbn [replaceAll].
  destruct (Ascii.eqb_spec c ">"%char) as [-> | Hgt].
  { now rewrite !replaceAll_append. }
  cbn [replaceAll].
  destruct (Ascii.eqb_spec c quoteChar) as [-> | Hquote].
  { now rewrite !replaceAll_append. }
  cbn [replaceAll].
  destruct (Ascii.eqb_spec c "'"%char) as [-> | Hapos]; reflexivity.
Qed.

(** X21.  The five chained replacements of the label escape each character
    exactly once: the result is the concatenation, character by character, of
    [&amp;] for [&], [&lt;] for [<], [&gt;] for [>], [&quot;] for the double
    quote, [&#39;] for the apostrophe, and the character itself otherwise.
    The ampersands written by one replacement are not escaped again by
    another. *)
Theorem escapeXml_single_pass (label : string) :
  escapeXml label = escapeEach label.
Proof.
  induction label as [| c s IH]; [reflexivity |].
  rewrite escapeXml_cons. cbn [escapeEach]. now rewrite IH.
Qed.

Lemma occurs_append (c : ascii) (a b : string) :
  occurs c (a ++ b) = occurs c a || occurs c b.
Proof.
  induction a as [| x a IH]; [reflexivity |].
  cbn [append occurs]. rewrite IH. now rewrite orb_assoc.
Qed.

Lemma escapeChar_clean (c x : ascii) :
  In x ["<"%char; ">"%char; quoteChar; "'"%char] ->
  occurs x (escapeChar c) = false.
Proof.
  intros Hx. unfold escapeChar.
  destruct (Ascii.eqb_spec c "&"%char) as [-> | Hamp].
  { cbn in Hx. now repeat (destruct Hx as [<- | Hx]; [reflexivity |]). }
  destruct (Ascii.eqb_spec c "<"%char) as [-> | Hlt].
  { cbn in Hx. now repeat (destruct Hx as [<- | Hx]; [reflexivity |]). }
  destruct (Ascii.eqb_spec c ">"%char) as [-> | Hgt].
  { cbn in Hx. now repeat (destruct Hx as [<- | Hx]; [reflexivity |]). }
  destruct (Ascii.eqb_spec c quoteChar) as [-> | Hquote].
  { cbn in Hx. now repeat (destruct Hx as [<- | Hx]; [reflexivity |]). }
  destruct (Ascii.eqb_spec c "'"%char) as [-> | Hapos].
  { cbn in Hx. now repeat (destruct Hx as [<- | Hx]; [reflexivity |]). }
  cbn [occurs]. rewrite orb_false_r.
  apply Ascii.eqb_neq. cbn in Hx.
  destruct Hx as [<- | [<- | [<- | [<- | []]]]]; assumption.
Qed.

(** X22.  The escaped label contains none of the characters [<], [>],
    double quote and apostrophe. *)
Theorem escapeXml_clean (label : string) (x : ascii) :
  In x ["<"%char; ">"%char; quoteChar; "'"%char] ->
  occurs x (escapeXml label) = false.
Proof.
  intros Hx. rewrite escapeXml_single_pass.
  induction label as [| c s IH]; [reflexivity |].
  cbn [escapeEach]. rewrite occurs_append, IH.
  now rewrite escapeChar_clean.
Qed.

Lemma escapeXml_clean_witness :
  occurs "<"%char (escapeXml "a<b & 'c'") = false.
Proof.
  apply escapeXml_clean. now left.
Defined.

Lemma escapeChar_head (c : ascii) :
  exists h t, escapeChar c = String h t /\
    (h = "&"%char ->
     exists k u, t = String k u /\
       (c = "&"%char /\ k = "a"%char \/ c = "<"%char /\ k = "l"%char \/
        c = ">"%char /\ k = "g"%char \/ c = quoteChar /\ k = "q"%char \/
        c = "'"%char /\ k = "#"%char)) /\
    (h <> "&"%char -> h = c /\ t = EmptyString).
Proof.
  unfold escapeChar.
  destruct (Ascii.eqb_spec c "&"%char) as [-> | Hamp].
  { do 2 eexists. split; [reflexivity |]. split; [| congruence].
    intros _. do 2 eexists. split; [reflexivity |]. tauto. }
  destruct (Ascii.eqb_spec c "<"%char) as [-> | Hlt].
  { do 2 eexists. split; [reflexivity |]. split; [| congruence].
    intros _. do 2 eexists. split; [reflexivity |]. tauto. }
  destruct (Ascii.eqb_spec c ">"%char) as [-> | Hgt].
  { do 2 eexists. split; [reflexivity |]. split; [| congruence].
    intros _. do 2 eexists. split; [reflexivity |]. tauto. }
  destruct (Ascii.eqb_spec c quoteChar) as [-> | Hquote].
  { do 2 eexists. split; [reflexivity |]. split; [| congruence].
    intros _. do 2 eexists. split; [reflexivity |]. tauto. }
  destruct (Ascii.eqb_spec c "'"%char) as [-> | Hapos].
  { do 2 eexists. split; [reflexivity |]. split; [| congruence].
    intros _. do 2 eexists. split; [reflexivity |]. tauto. }
  do 2 eexists. split; [reflexivity |]. split; [congruence | tauto].
Qed.

Lemma append_cancel (a x y : string) :
  (a ++ x)%string = (a ++ y)%string -> x = y.
Proof.
  induction a as [| c a IH]; [trivial |].
  cbn [append]. intros [= H]. now apply IH.
Qed.

Lemma escapeChar_injective (c d : ascii) (x y : string) :
  (escapeChar c ++ x)%string = (escapeChar d ++ y)%string ->
  c = d /\ x = y.
Proof.
  intros Heq.
  destruct (escapeChar_head c) as (h1 & t1 & Hc & Hamp1 & Hplain1).
  destruct (escapeChar_head d) as (h2 & t2 & Hd & Hamp2 & Hplain2).
  assert (Hsame : c = d).
  { rewrite Hc, Hd in Heq. cbn [append] in Heq.
    injection Heq as Hh Ht. subst h2.
    destruct (Ascii.eqb_spec h1 "&"%char) as [Hamp | Hplain].
    - destruct (Hamp1 Hamp) as (k1 & u1 & -> & Hk1).
      destruct (Hamp2 Hamp) as (k2 & u2 & -> & Hk2).
      cbn [append] in Ht. injection Ht as Hk _. subst k2.
      destruct Hk1 as [[-> ->] | [[-> ->] | [[-> ->] | [[-> ->] | [-> ->]]]]];
        destruct Hk2 as [[-> Hk] | [[-> Hk] | [[-> Hk] | [[-> Hk] | [-> Hk]]]]];
        try reflexivity; discriminate.
    - destruct (Hplain1 Hplain) as [<- _].
      now destruct (Hplain2 Hplain) as [<- _]. }
  subst d. split; [reflexivity |]. now apply append_cancel in Heq.
Qed.

(** X23.  Escaping loses nothing: two labels with the same escaped text are
    the same label. *)
Theorem escapeXml_injective (a b : string) :
  escapeXml a = escapeXml b -> a = b.
Proof.
  rewrite !escapeXml_single_pass. revert b.
  induction a as [| c a IH]; intros [| d b] Heq.
  - reflexivity.
  - cbn [escapeEach] in Heq.
    destruct (escapeChar_head d) as (h & t & Hd & _).
    rewrite Hd in Heq. discriminate.
  - cbn [escapeEach] in Heq.
    destruct (escapeChar_head c) as (h & t & Hc & _).
    rewrite Hc in Heq. discriminate.
  - cbn [escapeEach] in Heq.
    apply escapeChar_injective in Heq. destruct Heq as [-> Hrest].
    f_equal. now apply IH.
Qed.

Lemma escapeXml_injective_witness :
  ("a&b" = "a&b")%string.
Proof.
  apply escapeXml_injective. reflexivity.
Defined.

(** ** Label layout *)

Lemma string_append_assoc (a b c : string) :
  ((a ++ b) ++ c)%string = (a ++ (b ++ c))%string.
Proof.
  induction a as [| x a IH]; [reflexivity |].
  cbn [append]. now rewrite IH.
Qed.

Lemma split_nonempty (sep : ascii) (s : string) : split sep s <> [].
Proof.
  destruct s as [| c rest]; cbn [split]; [discriminate |].
  destruct (Ascii.eqb c sep); [discriminate |].
  destruct (split sep rest); discriminate.
Qed.

Lemma joinWith_cons (sep : ascii) (part : string) (rest : list string) :
  rest <> [] ->
  joinWith sep (part :: rest)
  = (part ++ String sep (joinWith sep rest))%string.
Proof. destruct rest; [contradiction | reflexivity]. Qed.

Lemma join_split (sep : ascii) (s : string) :
  joinWith sep (split sep s) = s.
Proof.
  induction s as [| c rest IH]; [reflexivity |].
  cbn [split].
  destruct (Ascii.eqb_spec c sep) as [-> | Hne].
  - rewrite joinWith_cons by apply split_nonempty. now rewrite IH.
  - pose proof (split_nonempty sep rest) as Hnon.
    destruct (split sep rest) as [| word words]; [contradiction |].
    destruct words as [| w ws].
    + cbn in IH |- *. now rewrite IH.
    + rewrite joinWith_cons in IH |- * by discriminate.
      cbn [append]. now rewrite IH.
Qed.

Lemma wrapWords_nonempty (measure : string -> R) (maxWidth : R)
    (cur : string) (words : list string) :
  wrapWords measure maxWidth cur words <> [].
Proof.
  revert cur. induction words as [| w rest IH]; intros cur; cbn [wrapWords].
  - discriminate.
  - destruct (JS.ltb _ _); [apply IH | discriminate].
Qed.

Lemma wrapWords_join (measure : string -> R) (maxWidth : R)
    (cur : string) (words : list string) :
  joinWith space (wrapWords measure maxWidth cur words)
  = joinWith space (cur :: words).
Proof.
  revert cur. induction words as [| w rest IH]; intros cur; [reflexivity |].
  cbn [wrapWords].
  destruct (JS.ltb _ _).
  - rewrite IH. rewrite (joinWith_cons space cur) by discriminate.
    destruct rest as [| w' rest'].
    + reflexivity.
    + rewrite !joinWith_cons by discriminate.
      unfold addWord. rewrite string_append_assoc. reflexivity.
  - rewrite joinWith_cons by apply wrapWords_nonempty.
    rewrite IH. now rewrite (joinWith_cons space cur) by discriminate.
Qed.

Lemma wrapWords_lines (measure : string -> R) (maxWidth : R)
    (cur : string) (words : list string) (line : string) :
  In line (wrapWords measure maxWidth cur words) ->
  line = cur \/ measure line < maxWidth \/ In line words.
Proof.
  revert cur. induction words as [| w rest IH]; intros cur.
  - cbn. intros [<- | []]. now left.
  - cbn [wrapWords].
    destruct (JS.ltb (measure (addWord cur w)) maxWidth) eqn:Hfit.
    + intros Hin. apply IH in Hin.
      destruct Hin as [-> | [Hm | Hin]].
      * right. left. now apply ltb_true.
      * right. now left.
      * right. right. now right.
    + intros [<- | Hin]; [now left |].
      apply IH in Hin. destruct Hin as [-> | [Hm | Hin]].
      * right. right. now left.
      * right. now left.
      * right. right. now right.
Qed.

Lemma wrapWords_count (measure : string -> R) (maxWidth : R)
    (cur : string) (words : list string) :
  (List.length (wrapWords measure maxWidth cur words)
   <= S (List.length words))%nat.
Proof.
  revert cur. induction words as [| w rest IH]; intros cur; cbn [wrapWords].
  - simpl. lia.
  - destruct (JS.ltb _ _); cbn [List.length].
    + specialize (IH (addWord cur w)). lia.
    + specialize (IH w). lia.
Qed.

(** X24.  [wrapText] loses nothing and reorders nothing: its lines, joined
    by single spaces, are the text; and it always returns at least one
    line. *)
Theorem wrapText_keeps_text (measure : string -> R) (text : string)
    (maxWidth : R) :
  joinWith space (wrapText measure text maxWidth) = text /\
  wrapText measure text maxWidth <> [].
Proof.
  unfold wrapText.
  pose proof (join_split space text) as Hjoin.
  pose proof (split_nonempty space text) as Hnon.
  destruct (split space text) as [| first rest]; [contradiction |].
  split; [now rewrite wrapWords_join | apply wrapWords_nonempty].
Qed.

(** X25.  Every line returned by [wrapText] either measures less than
    [maxWidth] or is a single word of the text (a word too wide to fit is
    left on a line of its own); and there are no more lines than words. *)
Theorem wrapText_lines_fit (measure : string -> R) (text : string)
    (maxWidth : R) :
  (forall line, In line (wrapText measure text maxWidth) ->
     measure line < maxWidth \/ In line (split space text)) /\
  (List.length (wrapText measure text maxWidth)
   <= List.length (split space text))%nat.
Proof.
  unfold wrapText.
  pose proof (split_nonempty space text) as Hnon.
  destruct (split space text) as [| first rest]; [contradiction |].
  split.
  - intros line Hin. apply wrapWords_lines in Hin.
    destruct Hin as [-> | [Hm | Hin]].
    + right. now left.
    + now left.
    + right. now right.
  - apply wrapWords_count.
Qed.

Lemma monospace_width (fontSize : R) (text : string) (n : Z) :
  Z.of_nat (String.length text) = n ->
  monospace fontSize text = fontSize * 0.6 * IZR n.
Proof. intros <-. unfold monospace. now rewrite INR_IZR_INZ. Qed.

Lemma wrapText_lines_fit_witness :
  monospace 10 "ab cd" < 40
  \/ In "ab cd"%string (split space "ab cd efgh").
Proof.
  apply (wrapText_lines_fit (monospace 10) "ab cd efgh" 40).
  cbv [wrapText split space Ascii.eqb Bool.eqb wrapWords addWord append].
  assert (H1 : JS.ltb (monospace 10 "ab cd") 40 = true).
  { apply ltb_true. rewrite (monospace_width _ _ 5) by reflexivity. lra. }
  assert (H2 : JS.ltb (monospace 10 "ab cd efgh") 40 = false).
  { apply ltb_false. rewrite (monospace_width _ _ 10) by reflexivity. lra. }
  rewrite H1, H2. now left.
Defined.

Lemma lessEq_true (a b : R) : lessEq a b = true <-> a <= b.
Proof. unfold lessEq. destruct (Rle_dec a b); split; intros; easy. Qed.

(** X26.  The font-size loop ends after at most [fuel] iterations as soon as
    [fuel] covers [fontSize - 8].  The size it returns is the initial size
    lowered by a whole number [k] of steps.  Either it is above 8 and the
    lines were wrapped for that size and fit the height; or it is 8 or less,
    and then the lines are the ones passed in when no step was taken, and
    otherwise the ones wrapped for the PREVIOUS size [fontSize + 1], the
    returned size being above 7. *)
Theorem shrinkToFit_ends (fuel : nat) (measure : R -> string -> R)
    (label : string) (maxWidth maxHeight fontSize : R)
    (lines : list string) :
  fontSize - 8 <= INR fuel ->
  exists size wrapped k,
    shrinkToFit fuel measure label maxWidth maxHeight fontSize lines
    = Some (size, wrapped) /\
    (k <= fuel)%nat /\ size = fontSize - INR k /\
    ((8 < size /\
      wrapped = wrapText (measure size) label maxWidth /\
      INR (List.length wrapped) * (size * 1.2) <= maxHeight) \/
     (size <= 8 /\
      (k = 0%nat -> wrapped = lines) /\
      ((0 < k)%nat ->
       7 < size /\
       wrapped = wrapText (measure (size + 1)) label maxWidth))).
Proof.
  revert fontSize lines.
  induction fuel as [| fuel IH]; intros fontSize lines Hfuel.
  - cbn [shrinkToFit]. cbn [INR] in Hfuel.
    destruct (JS.gtb fontSize 8) eqn:Hbig.
    { apply ltb_true in Hbig. lra. }
    exists fontSize, lines, 0%nat. split; [reflexivity |].
    split; [lia |]. split; [cbn; lra |].
    right. apply ltb_false in Hbig. split; [lra |].
    split; [trivial | lia].
  - cbn [shrinkToFit].
    destruct (JS.gtb fontSize 8) eqn:Hbig.
    + apply ltb_true in Hbig. cbv zeta.
      destruct (lessEq _ maxHeight) eqn:Hfit.
      * apply lessEq_true in Hfit.
        exists fontSize, (wrapText (measure fontSize) label maxWidth), 0%nat.
        split; [reflexivity |]. split; [lia |]. split; [cbn; lra |].
        left. now repeat split.
      * destruct (IH (fontSize - 1)
                    (wrapText (measure fontSize) label maxWidth))
          as (size & wrapped & k & Hrun & Hk & Hsize & Hcase).
        { rewrite S_INR in Hfuel. lra. }
        exists size, wrapped, (S k). split; [exact Hrun |].
        split; [lia |]. split; [rewrite S_INR; lra |].
        destruct Hcase as [Hfits | (Hsmall & Hzero & Hpos)];
          [now left |].
        right. split; [exact Hsmall |]. split; [lia |].
        intros _. destruct k as [| k].
        -- cbn [INR] in Hsize. split; [lra |].
           rewrite (Hzero eq_refl). f_equal. f_equal. lra.
        -- apply Hpos. lia.
    + exists fontSize, lines, 0%nat. split; [reflexivity |].
      split; [lia |]. split; [cbn; lra |].
      right. apply ltb_false in Hbig. split; [lra |].
      split; [trivial | lia].
Qed.

Lemma shrinkToFit_ends_witness :
  exists size wrapped k,
    shrinkToFit 2 monospace "ab cd efgh" 44 20 10 [] = Some (size, wrapped) /\
    (k <= 2)%nat /\ size = 10 - INR k.
Proof.
  destruct (shrinkToFit_ends 2 monospace "ab cd efgh" 44 20 10 [])
    as (size & wrapped & k & Hrun & Hk & Hsize & _).
  - cbn. lra.
  - now exists size, wrapped, k.
Defined.

Lemma shrinkToFit_small (fuel : nat) (measure : R -> string -> R)
    (label : string) (maxWidth maxHeight fontSize : R)
    (lines : list string) :
  fontSize <= 8 ->
  shrinkToFit fuel measure label maxWidth maxHeight fontSize lines
  = Some (fontSize, lines).
Proof.
  intros Hsmall.
  assert (Hgt : JS.gtb fontSize 8 = false) by (apply ltb_false; lra).
  destruct fuel; cbn [shrinkToFit]; now rewrite Hgt.
Qed.

(** X27.  A node whose smaller side is 16 or less gets no label text from
    the raster renderer: the font size starts at half that side, the loop
    that wraps the label is not entered, and no line is drawn, whatever the
    label and the text measure. *)
Theorem small_node_has_no_text (fuel : nat) (measure : R -> string -> R)
    (node : Node.t) (label : string) :
  Rmin (Node.width node) (Node.height node) <= 16 ->
  labelTexts fuel measure node label = Some [].
Proof.
  intros Hsmall. unfold labelTexts. cbv zeta.
  rewrite shrinkToFit_small by lra.
  reflexivity.
Qed.

Lemma small_node_has_no_text_witness :
  labelTexts 0 monospace (plainNode 0 100) "node" = Some [].
Proof.
  apply small_node_has_no_text.
  cbn. unfold Rmin. destruct (Rle_dec 10 10); lra.
Defined.

Lemma combine_seq_nth (s : nat) (lines : list string) (i : nat)
    (line : string) :
  nth_error lines i = Some line ->
  nth_error (combine (seq s (List.length lines)) lines) i
  = Some ((s + i)%nat, line).
Proof.
  revert s i. induction lines as [| l rest IH]; intros s i Hi.
  - destruct i; discriminate.
  - cbn [List.length seq combine]. destruct i as [| i].
    + cbn in Hi |- *. injection Hi as <-. now rewrite Nat.add_0_r.
    + cbn [nth_error] in Hi |- *. rewrite (IH (S s) i Hi).
      f_equal. f_equal. lia.
Qed.

(** X28.  When the raster renderer draws a label, it draws one text per
    line, in order, all at the horizontal centre of the node, one line
    height ([1.2 * fontSize]) apart, and the block is centred vertically:
    the ordinates of the first and of the last line are symmetric about the
    vertical centre of the node. *)
Theorem label_block_centred (fuel : nat) (measure : R -> string -> R)
    (node : Node.t) (label : string) (texts : list (string * R * R)) :
  labelTexts fuel measure node label = Some texts ->
  exists size lines,
    shrinkToFit fuel measure label (Node.width node - 8 * 2)
      (Node.height node - 8 * 2)
      (Rmin (Node.width node) (Node.height node) * 0.5) []
    = Some (size, lines) /\
    map (fun t => fst (fst t)) texts = lines /\
    (forall t, In t texts ->
       snd (fst t) = Node.x node + Node.width node / 2) /\
    (forall i t u,
       nth_error texts i = Some t -> nth_error texts (S i) = Some u ->
       snd u - snd t = size * 1.2) /\
    (forall first last,
       nth_error texts 0 = Some first ->
       nth_error texts (List.length texts - 1) = Some last ->
       snd first + snd last = 2 * (Node.y node + Node.height node / 2)).
Proof.
  unfold labelTexts. cbv zeta.
  destruct (shrinkToFit _ _ _ _ _ _ _) as [[size lines] |];
    [| discriminate].
  intros [= <-]. exists size, lines. split; [reflexivity |].
  set (startY := Node.y node + Node.height node / 2
                 - IZR (Z.of_nat (List.length lines) - 1)
                   * (size * 1.2) / 2).
  set (place := fun il : nat * string =>
                  (snd il, Node.x node + Node.width node / 2,
                   startY + INR (fst il) * (size * 1.2))).
  assert (Hnth : forall i line,
             nth_error lines i = Some line ->
             nth_error
               (map place (combine (seq 0 (List.length lines)) lines)) i
             = Some (place (i, line))).
  { intros i line Hi. rewrite nth_error_map.
    now rewrite (combine_seq_nth 0 lines i line Hi). }
  assert (Hlen : List.length
                   (map place (combine (seq 0 (List.length lines)) lines))
                 = List.length lines).
  { rewrite length_map, length_combine, length_seq. lia. }
  assert (Hinv : forall i t,
             nth_error
               (map place (combine (seq 0 (List.length lines)) lines)) i
             = Some t ->
             exists line, nth_error lines i = Some line /\
                          t = place (i, line)).
  { intros i t Ht.
    assert (Hi : (i < List.length lines)%nat).
    { rewrite <- Hlen. apply nth_error_Some. congruence. }
    destruct (nth_error lines i) as [line |] eqn:Hline.
    - exists line. split; [reflexivity |].
      rewrite (Hnth i line Hline) in Ht. congruence.
    - apply nth_error_None in Hline. lia. }
  split; [| split; [| split]].
  - apply nth_error_ext. intros i. rewrite nth_error_map.
    destruct (nth_error lines i) as [line |] eqn:Hline.
    + now rewrite (Hnth i line Hline).
    + apply nth_error_None in Hline.
      assert (Hnone : nth_error
                (map place (combine (seq 0 (List.length lines)) lines)) i
              = None) by (apply nth_error_None; lia).
      now rewrite Hnone.
  - intros t Ht. apply In_nth_error in Ht. destruct Ht as [i Hi].
    destruct (Hinv i t Hi) as (line & _ & ->). reflexivity.
  - intros i t u Ht Hu.
    destruct (Hinv i t Ht) as (l1 & _ & ->).
    destruct (Hinv (S i) u Hu) as (l2 & _ & ->).
    unfold place. cbn [fst snd]. rewrite S_INR. ring.
  - intros first last Hfirst Hlast. rewrite Hlen in Hlast.
    destruct (Hinv _ _ Hfirst) as (l1 & Hl1 & ->).
    destruct (Hinv _ _ Hlast) as (l2 & _ & ->).
    assert (Hpos : (0 < List.length lines)%nat)
      by (apply nth_error_Some; congruence).
    unfold place, startY. cbn [fst snd].
    rewrite (INR_IZR_INZ (List.length lines - 1)).
    rewrite Nat2Z.inj_sub by lia.
    cbn [INR]. change (Z.of_nat 1) with 1%Z.
    set (n := IZR (Z.of_nat (List.length lines) - 1)). field.
Qed.

Lemma label_block_centred_witness :
  exists texts,
    labelTexts 1 monospace wideNode "ab" = Some texts /\
    forall t, In t texts -> snd (fst t) = 100 + 100 / 2.
Proof.
  assert (Hrun : exists texts,
             labelTexts 1 monospace wideNode "ab" = Some texts).
  { unfold labelTexts. cbv zeta.
    assert (Hmin : Rmin (Node.width wideNode) (Node.height wideNode) = 60).
    { cbn [wideNode Node.width Node.height]. unfold Rmin.
      destruct (Rle_dec 100 60); lra. }
    rewrite Hmin. cbn [shrinkToFit].
    rewrite gtb_true by lra. cbv zeta.
    change (wrapText (monospace (60 * 0.5)) "ab"
              (Node.width wideNode - 8 * 2)) with ["ab"%string].
    cbn [List.length INR wideNode Node.height].
    rewrite (proj2 (lessEq_true _ _)) by lra.
    eexists. reflexivity. }
  destruct Hrun as [texts Hrun]. exists texts. split; [exact Hrun |].
  destruct (label_block_centred 1 monospace wideNode "ab" texts Hrun)
    as (size & lines & _ & _ & Hx & _).
  exact Hx.
Defined.

(** ** Node titles *)

Lemma updateNodeTitle_padded (titles : list string) (index : nat) :
  (index
   < List.length (titles
                  ++ repeat EmptyString (S index - List.length titles)))%nat.
Proof. rewrite length_app, repeat_length. lia. Qed.

Lemma padded_nth (titles : list string) (n j : nat) :
  nth_error (titles ++ repeat EmptyString n) j
  = if (j <? List.length titles)%nat then nth_error titles j
    else if (j <? List.length titles + n)%nat then Some EmptyString
    else None.
Proof.
  destruct (Nat.ltb_spec j (List.length titles)) as [Hin | Hout].
  - now apply nth_error_app1.
  - rewrite nth_error_app2 by lia.
    destruct (Nat.ltb_spec j (List.length titles + n)) as [Hpad | Hbeyond].
    + apply nth_error_repeat. lia.
    + apply nth_error_None. rewrite repeat_length. lia.
Qed.

Lemma title_list_edits_aux (titles : list string) (index : nat)
    (title : string) :
  nth_error (updateNodeTitle titles index title) index = Some title /\
  List.length (updateNodeTitle titles index title)
  = Nat.max (List.length titles) (S index).
Proof.
  unfold updateNodeTitle. cbv zeta.
  pose proof (updateNodeTitle_padded titles index) as Hlen.
  set (padded := titles ++ repeat EmptyString (S index - List.length titles))
    in *.
  assert (Hfirst : List.length (firstn index padded) = index)
    by (rewrite length_firstn; lia).
  split.
  - rewrite nth_error_app2 by lia.
    rewrite Hfirst, Nat.sub_diag. reflexivity.
  - rewrite length_app, Hfirst. cbn [List.length]. rewrite length_skipn.
    unfold padded in *. rewrite length_app, repeat_length in *. lia.
Qed.

(** X29.  [updateNodeTitle] sets the title at [index] and nothing else: the
    new list has the title at [index]; every other position keeps its
    title, positions newly created below [index] holding the empty title;
    and the length is the larger of the old length and [index + 1].
    Rebuilding the list for a node count [v] gives exactly [v] titles, the
    old ones where there were any and empty ones beyond. *)
Theorem title_list_edits (titles : list string) (index : nat)
    (title : string) :
  nth_error (updateNodeTitle titles index title) index = Some title /\
  (forall j, j <> index ->
     nth_error (updateNodeTitle titles index title) j
     = if (j <? List.length titles)%nat then nth_error titles j
       else if (j <? index)%nat then Some EmptyString
       else None) /\
  List.length (updateNodeTitle titles index title)
  = Nat.max (List.length titles) (S index) /\
  (forall v,
     List.length (syncTitles titles v) = v /\
     forall j, (j < v)%nat ->
       nth_error (syncTitles titles v) j
       = if (j <? List.length titles)%nat then nth_error titles j
         else Some EmptyString).
Proof.
  unfold updateNodeTitle. cbv zeta.
  pose proof (updateNodeTitle_padded titles index) as Hlen.
  set (padded := titles ++ repeat EmptyString (S index - List.length titles))
    in *.
  assert (Hfirst : List.length (firstn index padded) = index)
    by (rewrite length_firstn; lia).
  split; [| split; [| split]].
  - rewrite nth_error_app2 by lia.
    rewrite Hfirst, Nat.sub_diag. reflexivity.
  - intros j Hj.
    assert (Hpad : nth_error padded j
                   = if (j <? List.length titles)%nat
                     then nth_error titles j
                     else if (j <? List.length titles
                                   + (S index - List.length titles))%nat
                          then Some EmptyString else None)
      by apply padded_nth.
    destruct (Nat.lt_ge_cases j index) as [Hlt | Hge].
    + rewrite nth_error_app1 by lia.
      rewrite nth_error_firstn.
      destruct (Nat.ltb_spec j index); [| lia].
      rewrite Hpad.
      destruct (Nat.ltb_spec j (List.length titles)); [reflexivity |].
      destruct (Nat.ltb_spec j
                  (List.length titles + (S index - List.length titles)));
        [reflexivity | lia].
    + rewrite nth_error_app2 by lia. rewrite Hfirst.
      replace (j - index)%nat with (S (j - S index)) by lia.
      cbn [nth_error]. rewrite nth_error_skipn.
      replace (S index + (j - S index))%nat with j by lia.
      rewrite Hpad.
      destruct (Nat.ltb_spec j (List.length titles)); [reflexivity |].
      destruct (Nat.ltb_spec j index); [lia |].
      destruct (Nat.ltb_spec j
                  (List.length titles + (S index - List.length titles)));
        [lia | reflexivity].
  - rewrite length_app, Hfirst. cbn [List.length]. rewrite length_skipn.
    unfold padded in *. rewrite length_app, repeat_length in *. lia.
  - intros v. unfold syncTitles. split.
    + now rewrite length_map, length_seq.
    + intros j Hj. rewrite nth_error_map, nth_error_seq.
      destruct (Nat.ltb_spec j v); [| lia]. cbn [option_map Nat.add].
      destruct (Nat.ltb_spec j (List.length titles)) as [Hin | Hout].
      * destruct (nth_error titles j) eqn:Hnth; [reflexivity |].
        apply nth_error_None in Hnth. lia.
      * assert (Hnone : nth_error titles j = None)
          by (apply nth_error_None; lia).
        now rewrite Hnone.
Qed.

Lemma title_list_edits_witness :
  nth_error (updateNodeTitle ["a"%string] 2 "c") 1 = Some EmptyString.
Proof.
  destruct (title_list_edits ["a"%string] 2 "c") as (_ & Hother & _).
  apply (Hother 1%nat). discriminate.
Defined.

Lemma makeNode_titles (params : DiagramParams) (titles : list string)
    (count i : Z) (g : SeededRandom.t) :
  sameGeometry (fst (makeNode params count i g))
               (fst (makeNode (withNodeTitles params titles) count i g)) /\
  snd (makeNode (withNodeTitles params titles) count i g)
  = snd (makeNode params count i g) /\
  Node.label (fst (makeNode (withNodeTitles params titles) count i g))
  = match JS.nth titles i with
    | Some (String c rest) => Some (String c rest)
    | _ => None
    end.
Proof.
  split; [now repeat split |]. split; [reflexivity |].
  cbn [makeNode fst Node.label withNodeTitles nodeTitles].
  change (Node.label (fst (makeNode (withNodeTitles params titles)
                             count i g)))
    with (match JS.nth titles i with
          | Some title => if JS.truthy (Some title) then Some title else None
          | None => None
          end).
  destruct (JS.nth titles i) as [[| c rest] |]; reflexivity.
Qed.

Lemma genNodes_titles (params : DiagramParams) (titles : list string)
    (count : Z) (idx : list Z) (g : SeededRandom.t) :
  Forall2 sameGeometry
    (fst (genNodes params count idx g))
    (fst (genNodes (withNodeTitles params titles) count idx g)) /\
  snd (genNodes (withNodeTitles params titles) count idx g)
  = snd (genNodes params count idx g).
Proof.
  revert g. induction idx as [| i rest IH]; intros g.
  - split; [constructor | reflexivity].
  - cbn [genNodes].
    destruct (makeNode_titles params titles count i g) as (Hgeo & Hrng & _).
    destruct (makeNode params count i g) as [n g1].
    destruct (makeNode (withNodeTitles params titles) count i g)
      as [n' g1'].
    cbn [fst snd] in Hgeo, Hrng. subst g1'.
    destruct (IH g1) as (Hrest & Hrng').
    destruct (genNodes params count rest g1) as [ns g2].
    destruct (genNodes (withNodeTitles params titles) count rest g1)
      as [ns' g2'].
    cbn [fst snd] in *. split; [now constructor | exact Hrng'].
Qed.

Lemma chord_geometry (a a' b b' : Node.t) :
  sameGeometry a a' -> sameGeometry b b' -> chord a' b' = chord a b.
Proof.
  intros (_ & Hax & Hay & Haw & Hah) (_ & Hbx & Hby & Hbw & Hbh).
  unfold chord. now rewrite Hax, Hay, Haw, Hah, Hbx, Hby, Hbw, Hbh.
Qed.

Lemma nth_geometry (ns ns' : list Node.t) (t : Z) :
  Forall2 sameGeometry ns ns' ->
  match JS.nth ns t, JS.nth ns' t with
  | Some a, Some a' => sameGeometry a a'
  | None, None => True
  | _, _ => False
  end.
Proof.
  intros Hrel. unfold JS.nth. destruct (t <? 0)%Z; [trivial |].
  generalize (Z.to_nat t) as k. induction Hrel as [| a a' l l' Ha _ IH];
    intros [| k]; cbn [nth_error]; trivial. apply IH.
Qed.

(** The candidate step reads the node list through the geometry of the
    nodes only. *)
Lemma candidate_geometry (params : DiagramParams) (ns ns' : list Node.t)
    (count i : Z) (st : Gen) :
  Forall2 sameGeometry ns ns' ->
  candidate params ns' count i st = candidate params ns count i st.
Proof.
  intros Hrel. unfold candidate.
  destruct (SeededRandom.random (rng st)) as [r0 g0].
  destruct (JS.gtb r0 (connectionDensity params)); [reflexivity |].
  destruct (chooseTarget params count i g0) as [t g1].
  pose proof (nth_geometry ns ns' i Hrel) as Hi.
  pose proof (nth_geometry ns ns' t Hrel) as Ht.
  destruct (JS.nth ns i) as [a |], (JS.nth ns' i) as [a' |];
    try contradiction; [| reflexivity].
  destruct (JS.nth ns t) as [b |], (JS.nth ns' t) as [b' |];
    try contradiction; [| reflexivity].
  now rewrite (chord_geometry a a' b b' Hi Ht).
Qed.

Lemma forEach_ext {S : Type} (idx : list Z) (body body' : Z -> S -> option S)
    (s : S) :
  (forall i s0, body i s0 = body' i s0) ->
  forEach idx body s = forEach idx body' s.
Proof.
  intros Hext. revert s. induction idx as [| i rest IH]; intros s;
    [reflexivity |].
  cbn [forEach]. rewrite Hext. destruct (body' i s); [apply IH | reflexivity].
Qed.

Lemma labelFrom_nth (titles : list string) (k : nat) :
  match JS.nth titles (Z.of_nat k) with
  | Some (String c rest) => Some (String c rest)
  | _ => None
  end = labelFrom titles k.
Proof. unfold labelFrom. now rewrite nth_of_nat. Qed.

(** X30.  The titles change labels and nothing else.  Generating with
    another title list gives the same connections and nodes of the same id,
    position and size; the node at index [k] is labelled with the title at
    [k] when that title is a non-empty string and is unlabelled otherwise.
    In particular, after [updateNodeTitle] with a non-empty title the label
    taken at that index is that title. *)
Theorem titles_only_change_labels (params : DiagramParams)
    (titles : list string) :
  (exists s s',
     generateDiagram params = Some s /\
     generateDiagram (withNodeTitles params titles) = Some s' /\
     connections s' = connections s /\
     Forall2 sameGeometry (nodes s) (nodes s') /\
     forall k n', nth_error (nodes s') k = Some n' ->
       Node.label n' = labelFrom titles k) /\
  (forall index c rest,
     labelFrom (updateNodeTitle titles index (String c rest)) index
     = Some (String c rest)).
Proof.
  split.
  - destruct (generateDiagram_spec params) as (st & Hgen & _).
    destruct (generateDiagram_nodes (withNodeTitles params titles))
      as (s' & Hgen' & Hnodes').
    exists {| nodes := nodesOf params; connections := emitted st |}, s'.
    split; [exact Hgen |]. split; [exact Hgen' |].
    assert (Hrel : Forall2 sameGeometry (nodesOf params)
                     (nodesOf (withNodeTitles params titles))).
    { apply (genNodes_titles params titles). }
    split; [| split].
    + revert Hgen Hgen'. unfold generateDiagram.
      change (JS.round (nodeCount (withNodeTitles params titles)))
        with (JS.round (nodeCount params)).
      change (randomSeed (withNodeTitles params titles))
        with (randomSeed params).
      destruct (genNodes_titles params titles (JS.round (nodeCount params))
                  (upto (JS.round (nodeCount params)))
                  (SeededRandom.create (randomSeed params)))
        as (Hns & Hrng).
      destruct (genNodes params _ _ _) as [ns g].
      destruct (genNodes (withNodeTitles params titles) _ _ _) as [ns' g'].
      cbn [fst snd] in Hns, Hrng. subst g'.
      unfold genConnections.
      change (connectionsFromNode (withNodeTitles params titles))
        with (connectionsFromNode params).
      rewrite (forEach_ext _
                 (fun i => forEach (upto (connectionsFromNode params))
                   (fun _ => candidate (withNodeTitles params titles) ns'
                               (JS.round (nodeCount params)) i))
                 (fun i => forEach (upto (connectionsFromNode params))
                   (fun _ => candidate params ns
                               (JS.round (nodeCount params)) i))).
      * destruct (forEach _ _ _) as [final |]; [| discriminate].
        intros [= _ <-] [= <-]. reflexivity.
      * intros i s0. apply forEach_ext. intros _ s1.
        change (candidate (withNodeTitles params titles) ns'
                  (JS.round (nodeCount params)) i s1)
          with (candidate params ns' (JS.round (nodeCount params)) i s1).
        now apply candidate_geometry.
    + cbn [nodes]. now rewrite Hnodes'.
    + rewrite Hnodes'. intros k n' Hk.
      assert (Hlt : (Z.of_nat k
                     < JS.round (nodeCount (withNodeTitles params titles)))%Z).
      { assert (H : (k < List.length
                           (nodesOf (withNodeTitles params titles)))%nat)
          by (apply nth_error_Some; congruence).
        pose proof (f_equal (@List.length Z)
                      (nodesOf_ids (withNodeTitles params titles))) as Hl.
        rewrite length_map, upto_length in Hl. lia. }
      rewrite (nodesOf_nth _ k Hlt) in Hk. apply Some_eq in Hk. subst n'.
      destruct (makeNode_titles params titles
                  (JS.round (nodeCount (withNodeTitles params titles)))
                  (Z.of_nat k)
                  (SeededRandom.advance (6 * k)
                     (SeededRandom.create
                        (randomSeed (withNodeTitles params titles)))))
        as (_ & _ & Hlabel).
      rewrite Hlabel. apply labelFrom_nth.
  - intros index c rest. unfold labelFrom.
    destruct (title_list_edits_aux titles index (String c rest)) as [-> _].
    reflexivity.
Qed.
